(** * FilesWatcher: the watch-mode file watcher of lib/internal/watch_mode/files_watcher.js

    A shallow embedding of the [FilesWatcher] class.  The private fields of
    the class and the objects it talks to (the fs watch handles, the timer
    queue, the child processes, the upstream IPC channel, the listeners of
    the [changed] event) are gathered in one [state]; every method is a
    computation in a state-and-exception monad, so that an exception leaves
    behind the mutations made before it was thrown, as in JavaScript. *)

From stdpp Require Import gmap strings list fin_maps.

Open Scope string_scope.
#[local] Set Warnings "-register-all,-clear-no-such-hyp".

(** ** JavaScript values

    The values that reach the watcher from outside: IPC messages are
    deserialised JSON, file arguments are whatever a message lists.
    Numbers are integers here (no NaN, no fractions). *)

Inductive value :=
| VUndefined
| VNull
| VBool (b : bool)
| VNum (n : Z)
| VStr (s : string)
| VArr (elems : list value)
| VObj (props : list (string * value)).

(** [!!v] of JavaScript. *)
Definition truthy (v : value) : bool :=
  match v with
  | VUndefined | VNull => false
  | VBool b => b
  | VNum n => negb (n =? 0)%Z
  | VStr s => negb (String.eqb s "")
  | VArr _ | VObj _ => true
  end.

(** An optional owner ([null] and [undefined] are [None]); [if (owner)]. *)
Definition truthy_owner (owner : option string) : bool :=
  match owner with
  | Some o => negb (String.eqb o "")
  | None => false
  end.

Definition ArrayIsArray (v : value) : bool :=
  match v with VArr _ => true | _ => false end.

Definition array_elems (v : value) : list value :=
  match v with VArr l => l | _ => [] end.

Fixpoint assoc (k : string) (props : list (string * value)) : option value :=
  match props with
  | [] => None
  | (k', v) :: rest => if String.eqb k k' then Some v else assoc k rest
  end.

(** [StringPrototypeStartsWith(s, p)]. *)
Definition StringPrototypeStartsWith (s p : string) : bool := String.prefix p s.

(** ** What the module imports

    [path.dirname], [path.resolve], [url.fileURLToPath], [fs.watch] and the
    two process-wide facts read by the class are parameters of the model.
    Whether [fs.watch] accepts a path is a fixed oracle: it does not change
    while a watcher runs. *)

Record env := {
  supportsRecursiveWatching : bool;     (* win32 or darwin *)
  process_send : bool;                  (* is [process.send] defined *)
  dirname : string → string;
  resolve : string → string → string;
  fileURLToPath : value → option string;    (* [None]: the call throws *)
  fs_watch_ok : string → bool → bool        (* [false]: [watch(path, {recursive})] throws *)
}.

(** ** Objects *)

(** An entry of [#watchers]: [{ handle, recursive }].  A handle is named by
    the position of the [watch] call that created it in [fs_log]. *)
Record watcher := { handle : nat; recursive : bool }.

(** Calls made on the fs primitive and on the handles it returned. *)
Inductive fs_call :=
| FsWatch (path : string) (recursive : bool)
| FsOnChange (h : nat) (path : string) (recursive : bool)
| FsRemoveAllListeners (h : nat)
| FsClose (h : nat).

(** One [emit('changed', { owners })], stamped with the clock and with the
    trigger whose notification caused it.  [payload] is the content of the
    owners set at the time of the call. *)
Record emission := {
  at_time : nat;
  trigger_of : string;
  payload : option (gset string)
}.

(** Listener closures; [id] is the identity of the closure object. *)
Inductive listener :=
| ParentToChild (id : nat) (child : nat)        (* message => child.send(message) *)
| ChildToParent (id : nat)                      (* message => process.send(message) *)
| ModuleReports (id : nat) (key : option string). (* the handler of watchChildProcessModules *)

Definition listener_id (l : listener) : nat :=
  match l with
  | ParentToChild id _ | ChildToParent id | ModuleReports id _ => id
  end.

Record ipc_messages := { parentToChild : listener; childToParent : listener }.

(** A child process object: the [_ipcMessages] property hung on it by
    [#setupIPC], its ['message'] listeners, and what was passed to
    [child.send]. *)
Record child_process := {
  _ipcMessages : option ipc_messages;
  child_listeners : list listener;
  child_sent : list value
}.

Definition pristine_child : child_process :=
  {| _ipcMessages := None; child_listeners := []; child_sent := [] |}.

Inductive error :=
| TypeError
| FsError (path : string)
| InvalidArgValue (name : string).

Record state := {
  (* private fields of the class *)
  watchers : list (string * watcher);           (* SafeMap, in insertion order *)
  filteredFiles : gset string;
  throttling : gset string;
  depencencyOwners : gmap string (gset string);
  ownerDependencies : gmap string nat;          (* owner -> address of its SafeSet *)
  throttle : nat;
  mode : string;
  wantsPassthroughIPC : bool;
  (* the SafeSet objects stored in [#ownerDependencies], by address *)
  heap : gmap nat (gset string);
  (* the world around the watcher *)
  fs_log : list fs_call;
  emitted : list emission;
  timers : list (nat * string);                 (* pending timeouts: (due, trigger) *)
  now : nat;
  process_listeners : list listener;
  process_sent : list value;
  children : gmap nat child_process;
  next_closure : nat;
  (* ghost: the arguments of every call of filterFile that got past its
     guard, oldest first *)
  filter_log : list (string * option string)
}.

(** Field updates. *)

Definition set_watchers (x : list (string * watcher)) (s : state) : state :=
  {| watchers := x; filteredFiles := filteredFiles s; throttling := throttling s;
     depencencyOwners := depencencyOwners s; ownerDependencies := ownerDependencies s;
     throttle := throttle s; mode := mode s; wantsPassthroughIPC := wantsPassthroughIPC s;
     heap := heap s; fs_log := fs_log s; emitted := emitted s; timers := timers s;
     now := now s; process_listeners := process_listeners s; process_sent := process_sent s;
     children := children s; next_closure := next_closure s; filter_log := filter_log s |}.

Definition set_filteredFiles (x : gset string) (s : state) : state :=
  {| watchers := watchers s; filteredFiles := x; throttling := throttling s;
     depencencyOwners := depencencyOwners s; ownerDependencies := ownerDependencies s;
     throttle := throttle s; mode := mode s; wantsPassthroughIPC := wantsPassthroughIPC s;
     heap := heap s; fs_log := fs_log s; emitted := emitted s; timers := timers s;
     now := now s; process_listeners := process_listeners s; process_sent := process_sent s;
     children := children s; next_closure := next_closure s; filter_log := filter_log s |}.

Definition set_throttling (x : gset string) (s : state) : state :=
  {| watchers := watchers s; filteredFiles := filteredFiles s; throttling := x;
     depencencyOwners := depencencyOwners s; ownerDependencies := ownerDependencies s;
     throttle := throttle s; mode := mode s; wantsPassthroughIPC := wantsPassthroughIPC s;
     heap := heap s; fs_log := fs_log s; emitted := emitted s; timers := timers s;
     now := now s; process_listeners := process_listeners s; process_sent := process_sent s;
     children := children s; next_closure := next_closure s; filter_log := filter_log s |}.

Definition set_depencencyOwners (x : gmap string (gset string)) (s : state) : state :=
  {| watchers := watchers s; filteredFiles := filteredFiles s; throttling := throttling s;
     depencencyOwners := x; ownerDependencies := ownerDependencies s;
     throttle := throttle s; mode := mode s; wantsPassthroughIPC := wantsPassthroughIPC s;
     heap := heap s; fs_log := fs_log s; emitted := emitted s; timers := timers s;
     now := now s; process_listeners := process_listeners s; process_sent := process_sent s;
     children := children s; next_closure := next_closure s; filter_log := filter_log s |}.

Definition set_ownerDependencies (x : gmap string nat) (s : state) : state :=
  {| watchers := watchers s; filteredFiles := filteredFiles s; throttling := throttling s;
     depencencyOwners := depencencyOwners s; ownerDependencies := x;
     throttle := throttle s; mode := mode s; wantsPassthroughIPC := wantsPassthroughIPC s;
     heap := heap s; fs_log := fs_log s; emitted := emitted s; timers := timers s;
     now := now s; process_listeners := process_listeners s; process_sent := process_sent s;
     children := children s; next_closure := next_closure s; filter_log := filter_log s |}.

Definition set_heap (x : gmap nat (gset string)) (s : state) : state :=
  {| watchers := watchers s; filteredFiles := filteredFiles s; throttling := throttling s;
     depencencyOwners := depencencyOwners s; ownerDependencies := ownerDependencies s;
     throttle := throttle s; mode := mode s; wantsPassthroughIPC := wantsPassthroughIPC s;
     heap := x; fs_log := fs_log s; emitted := emitted s; timers := timers s;
     now := now s; process_listeners := process_listeners s; process_sent := process_sent s;
     children := children s; next_closure := next_closure s; filter_log := filter_log s |}.

Definition set_fs_log (x : list fs_call) (s : state) : state :=
  {| watchers := watchers s; filteredFiles := filteredFiles s; throttling := throttling s;
     depencencyOwners := depencencyOwners s; ownerDependencies := ownerDependencies s;
     throttle := throttle s; mode := mode s; wantsPassthroughIPC := wantsPassthroughIPC s;
     heap := heap s; fs_log := x; emitted := emitted s; timers := timers s;
     now := now s; process_listeners := process_listeners s; process_sent := process_sent s;
     children := children s; next_closure := next_closure s; filter_log := filter_log s |}.

Definition set_emitted (x : list emission) (s : state) : state :=
  {| watchers := watchers s; filteredFiles := filteredFiles s; throttling := throttling s;
     depencencyOwners := depencencyOwners s; ownerDependencies := ownerDependencies s;
     throttle := throttle s; mode := mode s; wantsPassthroughIPC := wantsPassthroughIPC s;
     heap := heap s; fs_log := fs_log s; emitted := x; timers := timers s;
     now := now s; process_listeners := process_listeners s; process_sent := process_sent s;
     children := children s; next_closure := next_closure s; filter_log := filter_log s |}.

Definition set_timers (x : list (nat * string)) (s : state) : state :=
  {| watchers := watchers s; filteredFiles := filteredFiles s; throttling := throttling s;
     depencencyOwners := depencencyOwners s; ownerDependencies := ownerDependencies s;
     throttle := throttle s; mode := mode s; wantsPassthroughIPC := wantsPassthroughIPC s;
     heap := heap s; fs_log := fs_log s; emitted := emitted s; timers := x;
     now := now s; process_listeners := process_listeners s; process_sent := process_sent s;
     children := children s; next_closure := next_closure s; filter_log := filter_log s |}.

Definition set_now (x : nat) (s : state) : state :=
  {| watchers := watchers s; filteredFiles := filteredFiles s; throttling := throttling s;
     depencencyOwners := depencencyOwners s; ownerDependencies := ownerDependencies s;
     throttle := throttle s; mode := mode s; wantsPassthroughIPC := wantsPassthroughIPC s;
     heap := heap s; fs_log := fs_log s; emitted := emitted s; timers := timers s;
     now := x; process_listeners := process_listeners s; process_sent := process_sent s;
     children := children s; next_closure := next_closure s; filter_log := filter_log s |}.

Definition set_process_listeners (x : list listener) (s : state) : state :=
  {| watchers := watchers s; filteredFiles := filteredFiles s; throttling := throttling s;
     depencencyOwners := depencencyOwners s; ownerDependencies := ownerDependencies s;
     throttle := throttle s; mode := mode s; wantsPassthroughIPC := wantsPassthroughIPC s;
     heap := heap s; fs_log := fs_log s; emitted := emitted s; timers := timers s;
     now := now s; process_listeners := x; process_sent := process_sent s;
     children := children s; next_closure := next_closure s; filter_log := filter_log s |}.

Definition set_process_sent (x : list value) (s : state) : state :=
  {| watchers := watchers s; filteredFiles := filteredFiles s; throttling := throttling s;
     depencencyOwners := depencencyOwners s; ownerDependencies := ownerDependencies s;
     throttle := throttle s; mode := mode s; wantsPassthroughIPC := wantsPassthroughIPC s;
     heap := heap s; fs_log := fs_log s; emitted := emitted s; timers := timers s;
     now := now s; process_listeners := process_listeners s; process_sent := x;
     children := children s; next_closure := next_closure s; filter_log := filter_log s |}.

Definition set_children (x : gmap nat child_process) (s : state) : state :=
  {| watchers := watchers s; filteredFiles := filteredFiles s; throttling := throttling s;
     depencencyOwners := depencencyOwners s; ownerDependencies := ownerDependencies s;
     throttle := throttle s; mode := mode s; wantsPassthroughIPC := wantsPassthroughIPC s;
     heap := heap s; fs_log := fs_log s; emitted := emitted s; timers := timers s;
     now := now s; process_listeners := process_listeners s; process_sent := process_sent s;
     children := x; next_closure := next_closure s; filter_log := filter_log s |}.

Definition set_next_closure (x : nat) (s : state) : state :=
  {| watchers := watchers s; filteredFiles := filteredFiles s; throttling := throttling s;
     depencencyOwners := depencencyOwners s; ownerDependencies := ownerDependencies s;
     throttle := throttle s; mode := mode s; wantsPassthroughIPC := wantsPassthroughIPC s;
     heap := heap s; fs_log := fs_log s; emitted := emitted s; timers := timers s;
     now := now s; process_listeners := process_listeners s; process_sent := process_sent s;
     children := children s; next_closure := x; filter_log := filter_log s |}.

Definition set_filter_log (x : list (string * option string)) (s : state) : state :=
  {| watchers := watchers s; filteredFiles := filteredFiles s; throttling := throttling s;
     depencencyOwners := depencencyOwners s; ownerDependencies := ownerDependencies s;
     throttle := throttle s; mode := mode s; wantsPassthroughIPC := wantsPassthroughIPC s;
     heap := heap s; fs_log := fs_log s; emitted := emitted s; timers := timers s;
     now := now s; process_listeners := process_listeners s; process_sent := process_sent s;
     children := children s; next_closure := next_closure s; filter_log := x |}.

(** ** The monad: state, with exceptions that keep the state *)

Inductive completion (A : Type) :=
| Normal (a : A)
| Throw (e : error).
Arguments Normal {A} a.
Arguments Throw {A} e.

Definition M (A : Type) : Type := state → completion A * state.

Definition ret {A} (a : A) : M A := λ s, (Normal a, s).
Definition throw {A} (e : error) : M A := λ s, (Throw e, s).

Definition bind {A B} (m : M A) (k : A → M B) : M B :=
  λ s, match m s with
       | (Normal a, s') => k a s'
       | (Throw e, s') => (Throw e, s')
       end.

(** [try { m } catch { }]. *)
Definition try_catch (m : M unit) : M unit :=
  λ s, match m s with
       | (Normal _, s') => (Normal tt, s')
       | (Throw _, s') => (Normal tt, s')
       end.

Definition get : M state := λ s, (Normal s, s).
Definition modify (f : state → state) : M unit := λ s, (Normal tt, f s).

Notation "'let*' x := m 'in' k" := (bind m (λ x, k))
  (at level 10, x name, m at level 100, k at level 200).
Notation "m ;;; k" := (bind m (λ _, k))
  (at level 100, k at level 200, right associativity).

(** [ArrayPrototypeForEach(l, f)] and the [forEach] of sets and maps. *)
Fixpoint forEach {A} (l : list A) (f : A → M unit) : M unit :=
  match l with
  | [] => ret tt
  | x :: rest => f x ;;; forEach rest f
  end.

Definition when (b : bool) (m : M unit) : M unit := if b then m else ret tt.

(** The state a computation leaves and whether it completed normally. *)
Definition exec {A} (m : M A) (s : state) : state := (m s).2.
Definition returns {A} (m : M A) (s : state) : bool :=
  match (m s).1 with Normal _ => true | Throw _ => false end.

(** ** The class *)

Section FilesWatcher.

Variable E : env.

(** [TIMEOUT_MAX] of internal/timers: 2 ** 31 - 1. *)
Definition TIMEOUT_MAX : Z := 2147483647.

(** The field initialisers and the assignments of the constructor; the
    world starts empty at time [0]. *)
Definition initial (throttle : nat) (mode : string) : state :=
  {| watchers := []; filteredFiles := ∅; throttling := ∅;
     depencencyOwners := ∅; ownerDependencies := ∅;
     throttle := throttle; mode := mode;
     wantsPassthroughIPC := process_send E;
     heap := ∅; fs_log := []; emitted := []; timers := []; now := 0;
     process_listeners := []; process_sent := []; children := ∅;
     next_closure := 0; filter_log := [] |}.

(** The constructor with its two validations,
    [validateNumber(throttle, 'options.throttle', 0, TIMEOUT_MAX)] and
    [validateOneOf(mode, 'options.mode', ['filter', 'all'])]. *)
Definition constructor (throttle : Z) (mode : string) : error + state :=
  if negb ((0 <=? throttle)%Z && (throttle <=? TIMEOUT_MAX)%Z)
  then inl (InvalidArgValue "options.throttle")
  else if negb (String.eqb mode "filter" || String.eqb mode "all")
  then inl (InvalidArgValue "options.mode")
  else inr (initial (Z.to_nat throttle) mode).

(** *** WatchRegistry *)

(** [SafeMap] operations on [#watchers].  [set] keeps the position of a key
    that is present and appends a new one. *)
Definition map_has (k : string) (m : list (string * watcher)) : bool :=
  existsb (λ kv, String.eqb k kv.1) m.

Fixpoint map_set (k : string) (v : watcher) (m : list (string * watcher))
  : list (string * watcher) :=
  match m with
  | [] => [(k, v)]
  | (k', v') :: rest =>
      if String.eqb k k' then (k, v) :: rest else (k', v') :: map_set k v rest
  end.

Definition map_delete (k : string) (m : list (string * watcher))
  : list (string * watcher) :=
  filter (λ kv, kv.1 ≠ k) m.

Definition isPathWatched (path : string) (s : state) : bool :=
  if map_has path (watchers s) then true
  else existsb (λ kv, recursive kv.2 && StringPrototypeStartsWith path kv.1)
               (watchers s).

Definition unwatch (w : watcher) : M unit :=
  modify (λ s, set_fs_log
    (fs_log s ++ [FsRemoveAllListeners (handle w); FsClose (handle w)]) s).

(** The loop of [#removeWatchedChildren] visits the entries present when it
    starts; the only entry it deletes is the one being visited, so no entry
    is skipped. *)
Definition removeWatchedChildren (path : string) : M unit :=
  let* s := get in
  forEach (watchers s) (λ kv,
    when (negb (String.eqb path kv.1) && StringPrototypeStartsWith kv.1 path)
      (unwatch kv.2 ;;;
       modify (λ s, set_watchers (map_delete kv.1 (watchers s)) s))).

(** [get watchedPaths]. *)
Definition watchedPaths (s : state) : list string := (watchers s).*1.

(** [watch(path, { recursive })]: throws where the primitive refuses the
    path, otherwise returns a new handle. *)
Definition fs_watch (path : string) (rec : bool) : M nat :=
  if fs_watch_ok E path rec
  then let* s := get in
       modify (set_fs_log (fs_log s ++ [FsWatch path rec])) ;;;
       ret (length (fs_log s))
  else throw (FsError path).

Definition watchPath (path : string) (rec : bool) : M unit :=
  let* s := get in
  if isPathWatched path s then ret tt
  else
    let* h := fs_watch path rec in
    modify (λ s, set_fs_log (fs_log s ++ [FsOnChange h path rec]) s) ;;;
    modify (λ s, set_watchers
              (map_set path {| handle := h; recursive := rec |} (watchers s)) s) ;;;
    when rec (removeWatchedChildren path).

(** *** ChangeDebouncer *)

(** [this.emit('changed', { owners })].  The listeners are the consumer's;
    the model records the call. *)
Definition emit_changed (trigger : string) (owners : option (gset string)) : M unit :=
  modify (λ s, set_emitted
    (emitted s ++ [{| at_time := now s; trigger_of := trigger; payload := owners |}]) s).

(** [setTimeout(() => this.#throttling.delete(trigger), delay).unref()]. *)
Definition setTimeout_unthrottle (trigger : string) (delay : nat) : M unit :=
  modify (λ s, set_timers (timers s ++ [(now s + delay, trigger)]) s).

Definition onChange (trigger : string) : M unit :=
  let* s := get in
  if bool_decide (trigger ∈ throttling s) then ret tt
  else if String.eqb (mode s) "filter" && negb (bool_decide (trigger ∈ filteredFiles s))
  then ret tt
  else
    modify (λ s, set_throttling ({[trigger]} ∪ throttling s) s) ;;;
    let owners := depencencyOwners s !! trigger in
    emit_changed trigger owners ;;;
    setTimeout_unthrottle trigger (throttle s).

(** The ['change'] listener installed by [watchPath] on handle [h]:
    [(eventType, fileName) => this.#onChange(recursive ? resolve(path, fileName) : path)].
    A handle whose listeners were removed delivers nothing. *)
Definition listeners_removed (h : nat) (log : list fs_call) : bool :=
  existsb (λ c, match c with FsRemoveAllListeners h' => Nat.eqb h' h | _ => false end) log.

Fixpoint installed_listener (h : nat) (log : list fs_call) : option (string * bool) :=
  match log with
  | [] => None
  | FsOnChange h' p r :: rest =>
      if Nat.eqb h' h then Some (p, r) else installed_listener h rest
  | _ :: rest => installed_listener h rest
  end.

Definition change_listener (h : nat) (s : state) : option (string * bool) :=
  if listeners_removed h (fs_log s) then None else installed_listener h (fs_log s).

(** The trigger that a notification [(eventType, fileName)] of handle [h]
    hands to [#onChange]. *)
Definition raw_trigger (h : nat) (fileName : string) (s : state) : option string :=
  match change_listener h s with
  | Some (path, rec) => Some (if rec then resolve E path fileName else path)
  | None => None
  end.

Definition fs_change (h : nat) (fileName : string) : M unit :=
  let* s := get in
  match raw_trigger h fileName s with
  | Some trigger => onChange trigger
  | None => ret tt
  end.

(** The timer queue: the clock moves by [dt] and every timeout that is due
    runs its callback, [this.#throttling.delete(trigger)]. *)
Definition is_due (t : nat) (tm : nat * string) : bool := Nat.leb tm.1 t.

Definition advance (dt : nat) : M unit :=
  modify (λ s, set_now (now s + dt) s) ;;;
  let* s := get in
  forEach (filter (λ tm, is_due (now s) tm) (timers s)) (λ tm,
    modify (λ s, set_throttling (throttling s ∖ {[tm.2]}) s)) ;;;
  modify (λ s, set_timers (filter (λ tm, negb (is_due (now s) tm)) (timers s)) s).

(** *** DependencyGraph *)

(** [new SafeSet()]: a fresh address holding the empty set. *)
Definition new_SafeSet : M nat :=
  let* s := get in
  let a := fresh (dom (heap s)) in
  modify (set_heap (<[a := ∅]> (heap s))) ;;;
  ret a.

(** The content of the set object at address [a]. *)
Definition deref (a : nat) (s : state) : gset string := default ∅ (heap s !! a).

(** [filterFile(file, owner)].  The model follows the code for a falsy
    [file] and for a string; any other value raises the [TypeError] with
    which [dirname] and [watch] reject a path that is not a string.  (On a
    platform without recursive watching the code first hands the value to
    [#isPathWatched], which coerces it to a string; the model does not
    follow that coercion.)  The ghost [filter_log] records the call once it
    is past the guard. *)
Definition filterFile (file : value) (owner : option string) : M unit :=
  if negb (truthy file) then ret tt
  else
    match file with
    | VStr f =>
        modify (λ s, set_filter_log (filter_log s ++ [(f, owner)]) s) ;;;
        (if supportsRecursiveWatching E
         then watchPath (dirname E f) true
         else watchPath f false) ;;;
        modify (λ s, set_filteredFiles ({[f]} ∪ filteredFiles s) s) ;;;
        when (truthy_owner owner)
          (let o := default "" owner in
           let* s := get in
           let owners := default ∅ (depencencyOwners s !! f) in
           let* dependencies :=
             match ownerDependencies s !! f with
             | Some a => ret a
             | None => new_SafeSet
             end in
           let owners := {[o]} ∪ owners in
           modify (λ s, set_heap (<[dependencies := {[f]} ∪ deref dependencies s]> (heap s)) s) ;;;
           modify (λ s, set_depencencyOwners (<[f := owners]> (depencencyOwners s)) s) ;;;
           modify (λ s, set_ownerDependencies (<[o := dependencies]> (ownerDependencies s)) s))
    | _ => throw TypeError
    end.

(** [unfilterFilesOwnedBy(owners)].  The inner [forEach] runs over the
    owner's set; its callback deletes from two other collections, so the
    order in which the elements come is immaterial. *)
Definition unfilterFilesOwnedBy (owners : list string) : M unit :=
  forEach owners (λ owner,
    let* s := get in
    match ownerDependencies s !! owner with
    | Some a =>
        forEach (elements (deref a s)) (λ dependency,
          modify (λ s, set_filteredFiles (filteredFiles s ∖ {[dependency]}) s) ;;;
          modify (λ s, set_depencencyOwners (delete dependency (depencencyOwners s)) s))
    | None => ret tt
    end ;;;
    modify (λ s, set_filteredFiles (filteredFiles s ∖ {[owner]}) s) ;;;
    modify (λ s, set_depencencyOwners (delete owner (depencencyOwners s)) s) ;;;
    modify (λ s, set_ownerDependencies (delete owner (ownerDependencies s)) s)).

Definition clearFileFilters : M unit :=
  modify (set_filteredFiles ∅).

Definition clear : M unit :=
  let* s := get in
  forEach (watchers s) (λ kv, unwatch kv.2) ;;;
  modify (set_watchers []) ;;;
  modify (set_filteredFiles ∅) ;;;
  modify (set_depencencyOwners ∅) ;;;
  modify (set_ownerDependencies ∅).

(** The two directions of the owner graph, as sets. *)
Definition OwnerToFiles (s : state) (owner : string) : gset string :=
  match ownerDependencies s !! owner with
  | Some a => deref a s
  | None => ∅
  end.

Definition FileToOwners (s : state) (file : string) : gset string :=
  default ∅ (depencencyOwners s !! file).

(** *** IPCRelay *)

Definition get_child (child : nat) (s : state) : child_process :=
  default pristine_child (children s !! child).

Definition update_child (child : nat) (f : child_process → child_process) : M unit :=
  modify (λ s, set_children (<[child := f (get_child child s)]> (children s)) s).

Definition new_closure : M nat :=
  let* s := get in
  modify (set_next_closure (S (next_closure s))) ;;;
  ret (next_closure s).

(** [emitter.on(event, l)] and [emitter.off(event, l)] on a listener list;
    [off] removes the most recently added instance. *)
Definition addListener (l : listener) (ls : list listener) : list listener := ls ++ [l].

Fixpoint remove_first (l : listener) (ls : list listener) : list listener :=
  match ls with
  | [] => []
  | l' :: rest =>
      if Nat.eqb (listener_id l) (listener_id l') then rest else l' :: remove_first l rest
  end.

Definition removeListener (l : listener) (ls : list listener) : list listener :=
  rev (remove_first l (rev ls)).

Definition child_send (child : nat) (message : value) : M unit :=
  update_child child (λ c,
    {| _ipcMessages := _ipcMessages c; child_listeners := child_listeners c;
       child_sent := child_sent c ++ [message] |}).

(** [process.send(message)]; calling it where it is undefined is a [TypeError]. *)
Definition process_send_message (message : value) : M unit :=
  if process_send E
  then modify (λ s, set_process_sent (process_sent s ++ [message]) s)
  else throw TypeError.

Definition setupIPC (child : nat) : M unit :=
  let* p2c := new_closure in
  let* c2p := new_closure in
  let m := {| parentToChild := ParentToChild p2c child; childToParent := ChildToParent c2p |} in
  update_child child (λ c,
    {| _ipcMessages := Some m; child_listeners := child_listeners c;
       child_sent := child_sent c |}) ;;;
  modify (λ s, set_process_listeners (addListener (parentToChild m) (process_listeners s)) s) ;;;
  update_child child (λ c,
    {| _ipcMessages := _ipcMessages c;
       child_listeners := addListener (childToParent m) (child_listeners c);
       child_sent := child_sent c |}).

(** [destroyIPC(child)].  [child._ipcMessages.parentToChild] is evaluated
    before [process.off] is called: it throws when the property is absent. *)
Definition destroyIPC (child : nat) : M unit :=
  let* s := get in
  when (wantsPassthroughIPC s)
    (match _ipcMessages (get_child child s) with
     | None => throw TypeError
     | Some m =>
         modify (λ s, set_process_listeners
                        (removeListener (parentToChild m) (process_listeners s)) s) ;;;
         update_child child (λ c,
           {| _ipcMessages := _ipcMessages c;
              child_listeners := removeListener (childToParent m) (child_listeners c);
              child_sent := child_sent c |})
     end).

(** [message[key]]: a [TypeError] on [null] and [undefined], [undefined]
    where the property is missing. *)
Definition get_property (message : value) (key : string) : M value :=
  match message with
  | VUndefined | VNull => throw TypeError
  | VObj props => ret (default VUndefined (assoc key props))
  | _ => ret VUndefined
  end.

Definition fileURLToPath_call (file : value) : M string :=
  match fileURLToPath E file with
  | Some p => ret p
  | None => throw TypeError
  end.

Definition watch_restarted : value := VObj [("watch:restarted", VObj [])].

(** The listener of lines 149-170, in two parts: what comes before the
    test of [sendInitial], which yields the value of [sendInitial], and the
    whole body inside its [try]/[catch].  ([sentInitial] is written and
    never read; it is left out.) *)
Definition register_reports (key : option string) (message : value) : M bool :=
  let* required := get_property message "watch:require" in
  let* sendInitial :=
    (if ArrayIsArray required
     then forEach (array_elems required) (λ file, filterFile file key) ;;; ret true
     else ret false) in
  let* imported := get_property message "watch:import" in
  if ArrayIsArray imported
  then forEach (array_elems imported) (λ file,
         let* p := fileURLToPath_call file in filterFile (VStr p) key) ;;;
       ret true
  else ret sendInitial.

Definition module_reports (key : option string) (message : value) : M unit :=
  try_catch
    (let* sendInitial := register_reports key message in
     when (sendInitial && process_send E) (process_send_message watch_restarted)).

(** Does the message hold an array under one of the two recognised keys? *)
Definition has_report_list (message : value) : bool :=
  match message with
  | VObj props =>
      ArrayIsArray (default VUndefined (assoc "watch:require" props))
      || ArrayIsArray (default VUndefined (assoc "watch:import" props))
  | _ => false
  end.

Definition watchChildProcessModules (child : nat) (key : option string) : M unit :=
  let* s := get in
  when (wantsPassthroughIPC s) (setupIPC child) ;;;
  if negb (String.eqb (mode s) "filter") then ret tt
  else
    let* id := new_closure in
    update_child child (λ c,
      {| _ipcMessages := _ipcMessages c;
         child_listeners := addListener (ModuleReports id key) (child_listeners c);
         child_sent := child_sent c |}).

(** Running a listener, and [emit('message', message)] on a child and on
    [process]: the listeners present at the time of the call run in order,
    and an exception of one of them ends the call. *)
Definition run_listener (message : value) (l : listener) : M unit :=
  match l with
  | ParentToChild _ child => child_send child message
  | ChildToParent _ => process_send_message message
  | ModuleReports _ key => module_reports key message
  end.

Definition child_message (child : nat) (message : value) : M unit :=
  let* s := get in
  forEach (child_listeners (get_child child s)) (run_listener message).

Definition process_message (message : value) : M unit :=
  let* s := get in
  forEach (process_listeners s) (run_listener message).

(** ** Runs

    What can happen to a watcher: a call of a public method, a notification
    of the fs primitive, a message from a child or from the parent, the
    passing of time.  After an exception the caller goes on with the state
    the exception left. *)

Inductive action :=
| WatchPath (path : string) (recursive : bool)
| FilterFile (file : value) (owner : option string)
| WatchChildProcessModules (child : nat) (key : option string)
| DestroyIPC (child : nat)
| UnfilterFilesOwnedBy (owners : list string)
| ClearFileFilters
| Clear
| FsChange (h : nat) (fileName : string)
| ChildMessage (child : nat) (message : value)
| ProcessMessage (message : value)
| Advance (dt : nat).

Definition step (a : action) : M unit :=
  match a with
  | WatchPath path rec => watchPath path rec
  | FilterFile file owner => filterFile file owner
  | WatchChildProcessModules child key => watchChildProcessModules child key
  | DestroyIPC child => destroyIPC child
  | UnfilterFilesOwnedBy owners => unfilterFilesOwnedBy owners
  | ClearFileFilters => clearFileFilters
  | Clear => clear
  | FsChange h fileName => fs_change h fileName
  | ChildMessage child message => child_message child message
  | ProcessMessage message => process_message message
  | Advance dt => advance dt
  end.

Definition run (acts : list action) (s : state) : state :=
  fold_left (λ s a, exec (step a) s) acts s.

End FilesWatcher.

(** * Vocabulary of the specification

    The relations, projections, closed forms and concrete scenarios that
    the statements below are written with. *)

(** ** Relations between states *)

(** [steps R m]: running [m] takes every state to an [R]-related one,
    whether [m] returns or throws. *)
Definition steps {A} (R : relation state) (m : M A) : Prop :=
  ∀ s, R s (m s).2.

(** [same f]: the two states agree on the projection [f]. *)
Definition same {B} (f : state → B) : relation state := λ s s', f s' = f s.

(** The parts of the state, by component of the specification. *)

(** What no method writes after construction. *)
Definition config (s : state) : nat * string * bool :=
  (throttle s, mode s, wantsPassthroughIPC s).

(** The debouncer's data. *)
Definition debounce (s : state) : gset string * list (nat * string) * nat * list emission :=
  (throttling s, timers s, now s, emitted s).

(** The relay's data. *)
Definition relay (s : state)
  : list listener * list value * gmap nat child_process * nat :=
  (process_listeners s, process_sent s, children s, next_closure s).

(** The filter, with its ghost log. *)
Definition filters (s : state) : gset string * list (string * option string) :=
  (filteredFiles s, filter_log s).

(** The owner graph. *)
Definition graph (s : state)
  : gmap string (gset string) * gmap string nat * gmap nat (gset string) :=
  (depencencyOwners s, ownerDependencies s, heap s).

(** The watch registry and the calls made on the fs primitive. *)
Definition registry (s : state) : list (string * watcher) * list fs_call :=
  (watchers s, fs_log s).

(** ** WatchRegistry *)

(** The test of [#removeWatchedChildren]: [watchedPath] is another path and
    starts with [path]. *)
Definition is_child_of (path watchedPath : string) : bool :=
  negb (String.eqb path watchedPath) && StringPrototypeStartsWith watchedPath path.

(** One turn of the loop of [#removeWatchedChildren], and the state it
    leaves. *)
Definition prune_entry (path : string) (kv : string * watcher) : M unit :=
  when (is_child_of path kv.1)
    (unwatch kv.2 ;;;
     modify (λ s, set_watchers (map_delete kv.1 (watchers s)) s)).

Definition pruned (path : string) (kv : string * watcher) (s : state) : state :=
  if is_child_of path kv.1
  then set_watchers (map_delete kv.1 (watchers s))
         (set_fs_log (fs_log s ++ [FsRemoveAllListeners (handle kv.2); FsClose (handle kv.2)]) s)
  else s.

(** The calls that stop the entries [l]. *)
Definition closing (l : list (string * watcher)) : list fs_call :=
  flat_map (λ kv, [FsRemoveAllListeners (handle kv.2); FsClose (handle kv.2)]) l.

(** Between two states: the registry keeps at most one entry per path. *)
Definition keeps_unique : relation state := λ s s',
  NoDup (watchedPaths s) → NoDup (watchedPaths s').

(** ** ChangeDebouncer *)

(** The two guards of [#onChange]. *)
Definition discards (trigger : string) (s : state) : bool :=
  bool_decide (trigger ∈ throttling s)
  || (String.eqb (mode s) "filter" && negb (bool_decide (trigger ∈ filteredFiles s))).

(** The event emitted for [trigger] in state [s]. *)
Definition changed_event (trigger : string) (s : state) : emission :=
  {| at_time := now s; trigger_of := trigger; payload := depencencyOwners s !! trigger |}.

(** The state after a notification that is not discarded. *)
Definition notified (trigger : string) (s : state) : state :=
  set_timers (timers s ++ [(now s + throttle s, trigger)])
    (set_emitted (emitted s ++ [changed_event trigger s])
       (set_throttling ({[trigger]} ∪ throttling s) s)).

(** The throttle set after the timeouts [l] have run, and the state after
    the clock moved by [dt]. *)
Definition unthrottle (l : list (nat * string)) (th : gset string) : gset string :=
  fold_left (λ acc tm, acc ∖ {[tm.2]}) l th.

Definition ticked (dt : nat) (s : state) : state :=
  let t := now s + dt in
  set_timers (filter (λ tm, negb (is_due t tm)) (timers s))
    (set_throttling (unthrottle (filter (λ tm, is_due t tm) (timers s)) (throttling s))
       (set_now t s)).

(** Emissions of one trigger lie at least [d] apart. *)
Definition separated (d : nat) (l : list emission) : Prop :=
  ∀ i j e1 e2, (i < j)%nat → l !! i = Some e1 → l !! j = Some e2 →
    trigger_of e1 = trigger_of e2 → (at_time e1 + d ≤ at_time e2)%nat.

(** The invariant of the throttle window: a trigger has at most one
    pending timeout, only throttled triggers have one, and every emission
    is either a full delay old or covered by a timeout that is due no
    earlier than a full delay after it. *)
Record throttle_inv (s : state) : Prop := {
  timers_nodup : NoDup (timers s).*2;
  timers_throttled : ∀ tm, tm ∈ timers s → tm.2 ∈ throttling s;
  emitted_window : ∀ e, e ∈ emitted s →
    (at_time e + throttle s ≤ now s)%nat ∨
    ∃ due, (due, trigger_of e) ∈ timers s ∧ (at_time e + throttle s ≤ due)%nat;
  emitted_separated : separated (throttle s) (emitted s)
}.

(** ** DependencyGraph *)

(** Between two states: every filtered file of the second was filtered in
    the first or went through [filterFile]; the ghost log only grows. *)
Definition filter_sound : relation state := λ s s',
  (∀ x, x ∈ filteredFiles s' → x ∈ filteredFiles s ∨ x ∈ (filter_log s').*1) ∧
  (∀ x, x ∈ (filter_log s).*1 → x ∈ (filter_log s').*1).

(** After the ghost log was written, [filterFile f] adds at most [f]. *)
Definition adds_at_most (f : string) : relation state := λ s s',
  filter_log s' = filter_log s ∧ filteredFiles s' ⊆ {[f]} ∪ filteredFiles s.

(** The symmetry of the owner graph. *)
Definition symmetric (s : state) : Prop :=
  ∀ f o, f ∈ OwnerToFiles s o ↔ o ∈ FileToOwners s f.

(** The set object that [filterFile(file, _)] adds [file] to: the one stored
    under the key [file] in [#ownerDependencies], or else a new one. *)
Definition dependencies_of (f : string) (s : state) : nat :=
  match ownerDependencies s !! f with
  | Some a => a
  | None => fresh (dom (heap s))
  end.

(** The heap once that set object exists. *)
Definition heap_with (f : string) (s : state) : gmap nat (gset string) :=
  match ownerDependencies s !! f with
  | Some a => heap s
  | None => <[fresh (dom (heap s)) := ∅]> (heap s)
  end.

(** The state after lines 115-120, started in [s]. *)
Definition linked (f o : string) (s : state) : state :=
  let a := dependencies_of f s in
  set_ownerDependencies (<[o := a]> (ownerDependencies s))
    (set_depencencyOwners (<[f := {[o]} ∪ default ∅ (depencencyOwners s !! f)]> (depencencyOwners s))
       (set_heap (<[a := {[f]} ∪ default ∅ (heap_with f s !! a)]> (heap_with f s)) s)).

(** The watch request of [filterFile]. *)
Definition watch_for (E : env) (f : string) : M unit :=
  if supportsRecursiveWatching E
  then watchPath E (dirname E f) true
  else watchPath E f false.

(** Lines 175-176 for one dependency, and lines 174-180 for one owner. *)
Definition forget (dependency : string) (s : state) : state :=
  set_depencencyOwners (delete dependency (depencencyOwners s))
    (set_filteredFiles (filteredFiles s ∖ {[dependency]}) s).

Definition unfilter_owner (owner : string) (s : state) : state :=
  let s1 := fold_left (λ s d, forget d s) (elements (OwnerToFiles s owner)) s in
  set_ownerDependencies (delete owner (ownerDependencies s1)) (forget owner s1).

(** The state after [clear()]. *)
Definition cleared (s : state) : state :=
  set_ownerDependencies ∅
    (set_depencencyOwners ∅
       (set_filteredFiles ∅
          (set_watchers [] (set_fs_log (fs_log s ++ closing (watchers s)) s)))).

(** ** IPCRelay *)

(** A child on which [#setupIPC] never ran has no [_ipcMessages]. *)
Definition unpaired (child : nat) (s : state) : Prop :=
  _ipcMessages (get_child child s) = None.

(** ** More vocabulary: registry

    The handle on which a call of the log is made. *)
Definition mentions (c : fs_call) : option nat :=
  match c with
  | FsWatch _ _ => None
  | FsOnChange h _ _ | FsRemoveAllListeners h | FsClose h => Some h
  end.

(** The state after lines 95-98 of [watchPath] on a path that is not
    covered, the state after the loop of [#removeWatchedChildren] over the
    entries [l], and the state after the whole call. *)
Definition registered (path : string) (rec : bool) (s : state) : state :=
  let h := length (fs_log s) in
  set_watchers (watchers s ++ [(path, {| handle := h; recursive := rec |})])%list
    (set_fs_log (fs_log s ++ [FsWatch path rec; FsOnChange h path rec])%list s).

Definition prune_all (path : string) (l : list (string * watcher)) (s : state) : state :=
  fold_left (λ s kv, pruned path kv s) l s.

Definition watched (path : string) (rec : bool) (s : state) : state :=
  let s1 := registered path rec s in
  if rec then prune_all path (watchers s1) s1 else s1.

(** The registry and the log agree: one entry per path, no handle named
    before it was created, and a handle has a live listener exactly when
    its entry is registered. *)
Record registry_wf (s : state) : Prop := {
  wf_unique : NoDup (watchedPaths s);
  wf_bounded : ∀ c h, c ∈ fs_log s → mentions c = Some h → (h < length (fs_log s))%nat;
  wf_live : ∀ h p r,
    change_listener h s = Some (p, r) ↔
    (p, {| handle := h; recursive := r |}) ∈ watchers s
}.

(** No entry strictly below the root of a recursive entry. *)
Definition no_nested (s : state) : Prop :=
  ∀ p w d w', (p, w) ∈ watchers s → (d, w') ∈ watchers s →
    recursive w = true → is_child_of p d = false.

(** Between two states: the two properties above are kept. *)
Definition keeps_wf : relation state := λ s s', registry_wf s → registry_wf s'.

Definition keeps_flat : relation state := λ s s', no_nested s → no_nested s'.

(** ** More vocabulary: debouncer

    Every throttled trigger has a pending timeout, and no timeout is due
    later than one delay from now. *)
Record timers_inv (s : state) : Prop := {
  throttled_has_timer : ∀ t, t ∈ throttling s → ∃ due, (due, t) ∈ timers s;
  timers_within_delay : ∀ tm, tm ∈ timers s → (tm.1 ≤ now s + throttle s)%nat
}.

(** Between two states: the ghost log grew by [l], and every filtered file
    of the second state was filtered in the first or is named in [l]. *)
Definition filter_since : relation state := λ s s',
  ∃ l, filter_log s' = (filter_log s ++ l)%list ∧
       ∀ x, x ∈ filteredFiles s' → x ∈ filteredFiles s ∨ x ∈ l.*1.

(** ** More vocabulary: graph

    Between two states: the filter and the owners of every file only
    grow. *)
Definition grows : relation state := λ s s',
  filteredFiles s ⊆ filteredFiles s' ∧ ∀ g, FileToOwners s g ⊆ FileToOwners s' g.

(** What [unfilterFilesOwnedBy(owners)] removes: the ids of the listed
    owners and the files in their sets. *)
Definition unfiltered_by (owners : list string) (s : state) (x : string) : Prop :=
  x ∈ owners ∨ ∃ o, o ∈ owners ∧ x ∈ OwnerToFiles s o.

(** ** More vocabulary: relay

    An update of one child object; the states after [#setupIPC], after the
    registration of the handler of module reports, and after the two
    [off] calls of [destroyIPC]. *)
Definition on_child (child : nat) (f : child_process → child_process) (s : state) : state :=
  set_children (<[child := f (get_child child s)]> (children s)) s.

Definition paired (child : nat) (s : state) : state :=
  let n := next_closure s in
  let m := {| parentToChild := ParentToChild n child; childToParent := ChildToParent (S n) |} in
  on_child child (λ c,
      {| _ipcMessages := _ipcMessages c;
         child_listeners := addListener (childToParent m) (child_listeners c);
         child_sent := child_sent c |})
    ((λ s, set_process_listeners (addListener (parentToChild m) (process_listeners s)) s)
       (on_child child (λ c,
            {| _ipcMessages := Some m; child_listeners := child_listeners c;
               child_sent := child_sent c |})
          (set_next_closure (S (S n)) s))).

Definition listening (child : nat) (key : option string) (s : state) : state :=
  on_child child (λ c,
      {| _ipcMessages := _ipcMessages c;
         child_listeners := addListener (ModuleReports (next_closure s) key) (child_listeners c);
         child_sent := child_sent c |})
    (set_next_closure (S (next_closure s)) s).

Definition unpaired_again (child : nat) (m : ipc_messages) (s : state) : state :=
  on_child child (λ c,
      {| _ipcMessages := _ipcMessages c;
         child_listeners := removeListener (childToParent m) (child_listeners c);
         child_sent := child_sent c |})
    (set_process_listeners (removeListener (parentToChild m) (process_listeners s)) s).

(** ** Concrete platforms and runs

    The stand-ins below for [path.dirname], [path.resolve] and
    [url.fileURLToPath] are only used to evaluate the model on examples;
    every general statement holds for any choice of them. *)

Fixpoint before_last_slash (s : string) : option string :=
  match s with
  | EmptyString => None
  | String c rest =>
      match before_last_slash rest with
      | Some d => Some (String c d)
      | None => if String.eqb (String c EmptyString) "/" then Some EmptyString else None
      end
  end.

Definition posix_dirname (s : string) : string :=
  match before_last_slash s with
  | Some EmptyString => "/"
  | Some d => d
  | None => "."
  end.

Definition posix_resolve (dir fileName : string) : string := dir ++ "/" ++ fileName.

Definition file_url_path (v : value) : option string :=
  match v with
  | VStr s => if String.prefix "file://" s
              then Some (String.substring 7 (String.length s - 7) s)
              else None
  | _ => None
  end.

(** Linux, started by a parent with an IPC channel; macOS, started from a
    shell. *)
Definition linux_child : env :=
  {| supportsRecursiveWatching := false; process_send := true;
     dirname := posix_dirname; resolve := posix_resolve;
     fileURLToPath := file_url_path; fs_watch_ok := λ _ _, true |}.

Definition darwin_shell : env :=
  {| supportsRecursiveWatching := true; process_send := false;
     dirname := posix_dirname; resolve := posix_resolve;
     fileURLToPath := file_url_path; fs_watch_ok := λ _ _, true |}.

(** One file with two owners, one of which is then unfiltered. *)
Definition shared_file_run : state :=
  run linux_child
    [FilterFile (VStr "/a/x.js") (Some "o1");
     FilterFile (VStr "/a/x.js") (Some "o2");
     UnfilterFilesOwnedBy ["o1"]]
    (initial linux_child 500 "filter").

(** Two files registered for one owner, which is then unfiltered. *)
Definition two_files_run : state :=
  run linux_child
    [FilterFile (VStr "/a/x.js") (Some "o");
     FilterFile (VStr "/a/y.js") (Some "o");
     UnfilterFilesOwnedBy ["o"]]
    (initial linux_child 500 "filter").

(** A report whose only list is empty. *)
Definition empty_report : value := VObj [("watch:require", VArr [])].

(** A recursive watch on a directory; a plain watch inside it. *)
Definition watching_a : state :=
  run darwin_shell [WatchPath "/a" true] (initial darwin_shell 500 "filter").

Definition watching_a_b : state :=
  run darwin_shell [WatchPath "/a/b" false] (initial darwin_shell 500 "filter").

(** The scenario of the specification: throttle 100, filter mode,
    [filterFile("/a/b.js", "ownerX")], two notifications 50 ms apart, a
    third one 150 ms later. *)
Definition filtered_b : state :=
  run linux_child [FilterFile (VStr "/a/b.js") (Some "ownerX")]
    (initial linux_child 100 "filter").

Definition after_first : state := exec (fs_change linux_child 0 "b.js") filtered_b.
Definition after_second : state :=
  exec (fs_change linux_child 0 "b.js") (exec (advance 50) after_first).
Definition after_third : state :=
  exec (fs_change linux_child 0 "b.js") (exec (advance 150) after_second).

(** Two unrelated roots; a watcher before any call; a report with one
    required path and an import entry that is not a URL. *)
Definition two_roots : list action := [WatchPath "/a" true; WatchPath "/b/c" false].

Definition unwatched : state := initial linux_child 100 "filter".


(** One file is filtered and then changes on disk. *)
Definition one_change : list action :=
  [FilterFile (VStr "/a/b.js") (Some "ownerX"); FsChange 0 "b.js"].

(** A platform on which the fs primitive refuses every path. *)
Definition read_only_fs : env :=
  {| supportsRecursiveWatching := false; process_send := true;
     dirname := posix_dirname; resolve := posix_resolve;
     fileURLToPath := file_url_path; fs_watch_ok := λ _ _, false |}.

(** * Reasoning about computations *)

#[global] Instance same_preorder {B} (f : state → B) : PreOrder (same f).
Proof.
  split.
  - intros s. reflexivity.
  - intros s1 s2 s3 H12 H23. unfold same in *. congruence.
Qed.

Section Steps.

Context (R : relation state) `{!PreOrder R}.

Lemma steps_ret {A} (a : A) : steps R (ret a).
Proof. intros s. reflexivity. Qed.

Lemma steps_throw {A} (e : error) : steps R (@throw A e).
Proof. intros s. reflexivity. Qed.

Lemma steps_get : steps R get.
Proof. intros s. reflexivity. Qed.

Lemma steps_modify (g : state → state) : (∀ s, R s (g s)) → steps R (modify g).
Proof. intros Hg s. apply Hg. Qed.

Lemma steps_bind {A B} (m : M A) (k : A → M B) :
  steps R m → (∀ a, steps R (k a)) → steps R (bind m k).
Proof.
  intros Hm Hk s. unfold bind. specialize (Hm s).
  destruct (m s) as [[a|e] s1]; simpl in *; [|done].
  etransitivity; [exact Hm | apply Hk].
Qed.

Lemma steps_try_catch (m : M unit) : steps R m → steps R (try_catch m).
Proof.
  intros Hm s. unfold try_catch. specialize (Hm s).
  by destruct (m s) as [[a|e] s1].
Qed.

Lemma steps_when (b : bool) (m : M unit) : steps R m → steps R (when b m).
Proof. intros Hm. destruct b; [done | apply steps_ret]. Qed.

Lemma steps_forEach {A} (l : list A) (f : A → M unit) :
  (∀ x, steps R (f x)) → steps R (forEach l f).
Proof.
  intros Hf. induction l as [|x l IH]; simpl.
  - apply steps_ret.
  - apply steps_bind; [apply Hf | intros _; exact IH].
Qed.

End Steps.

(** Breaks a [steps] goal down along the structure of the computation. *)
Ltac steps_structure :=
  repeat match goal with
    | |- steps ?R (ret _) => apply (steps_ret R)
    | |- steps ?R (throw _) => apply (steps_throw R)
    | |- steps ?R get => apply (steps_get R)
    | |- steps ?R (try_catch _) => apply (steps_try_catch R)
    | |- steps ?R (when _ _) => apply (steps_when R)
    | |- steps ?R (forEach _ _) => apply (steps_forEach R); intros ?
    | |- steps ?R (bind _ _) => apply (steps_bind R); [| intros ?]
    | |- steps _ (if ?b then _ else _) => destruct b
    | |- steps _ (match ?x with _ => _ end) => destruct x
    end.

(** A computation that writes none of the fields read by [f]. *)
Ltac frame :=
  steps_structure;
  try match goal with
      | |- steps ?R (modify _) => apply (steps_modify R); intros ?; reflexivity
      end.

(** Unfolding [bind] on a known first step. *)
Lemma bind_normal {A B} (m : M A) (k : A → M B) s a s' :
  m s = (Normal a, s') → bind m k s = k a s'.
Proof. intros H. unfold bind. by rewrite H. Qed.

Lemma bind_throw {A B} (m : M A) (k : A → M B) s e s' :
  m s = (Throw e, s') → bind m k s = (Throw e, s').
Proof. intros H. unfold bind. by rewrite H. Qed.

(** * Frame properties of the methods *)

Section Frames.

Variable E : env.

Lemma removeWatchedChildren_same {B} (f : state → B) path :
  (∀ x s, f (set_fs_log x s) = f s) →
  (∀ x s, f (set_watchers x s) = f s) →
  steps (same f) (removeWatchedChildren path).
Proof.
  intros Hlog Hw. unfold removeWatchedChildren, unwatch. steps_structure;
    match goal with
    | |- steps ?R (modify _) => apply (steps_modify R); intros ?; unfold same; auto
    end.
Qed.

Lemma watchPath_same {B} (f : state → B) path rec :
  (∀ x s, f (set_fs_log x s) = f s) →
  (∀ x s, f (set_watchers x s) = f s) →
  steps (same f) (watchPath E path rec).
Proof.
  intros Hlog Hw. unfold watchPath, fs_watch. steps_structure;
    try (apply removeWatchedChildren_same; assumption);
    match goal with
    | |- steps ?R (modify _) => apply (steps_modify R); intros ?; unfold same; auto
    end.
Qed.

Lemma filterFile_same {B} (f : state → B) file owner :
  (∀ x s, f (set_fs_log x s) = f s) →
  (∀ x s, f (set_watchers x s) = f s) →
  (∀ x s, f (set_filter_log x s) = f s) →
  (∀ x s, f (set_filteredFiles x s) = f s) →
  (∀ x s, f (set_heap x s) = f s) →
  (∀ x s, f (set_depencencyOwners x s) = f s) →
  (∀ x s, f (set_ownerDependencies x s) = f s) →
  steps (same f) (filterFile E file owner).
Proof.
  intros H1 H2 H3 H4 H5 H6 H7. unfold filterFile, new_SafeSet. steps_structure;
    try (apply watchPath_same; assumption);
    match goal with
    | |- steps ?R (modify _) => apply (steps_modify R); intros ?; unfold same; auto
    end.
Qed.

End Frames.

(** * WatchRegistry: coverage and pruning *)

Section Registry.

Variable E : env.

Lemma map_has_spec k (m : list (string * watcher)) :
  map_has k m = true ↔ k ∈ m.*1.
Proof.
  unfold map_has. rewrite existsb_exists, list_elem_of_fmap. split.
  - intros [kv [Hin Heq]]. apply String.eqb_eq in Heq.
    exists kv. split; [done | by apply list_elem_of_In].
  - intros [kv [-> Hin]]. exists kv. split; [by apply list_elem_of_In | apply String.eqb_refl].
Qed.

(** [#isPathWatched] is the coverage test of the specification. *)
Lemma isPathWatched_spec path s :
  isPathWatched path s = true ↔
  path ∈ watchedPaths s ∨
  ∃ root w, (root, w) ∈ watchers s ∧ recursive w = true ∧
            StringPrototypeStartsWith path root = true.
Proof.
  unfold isPathWatched, watchedPaths.
  destruct (map_has path (watchers s)) eqn:Hhas.
  - apply map_has_spec in Hhas. tauto.
  - rewrite existsb_exists. split.
    + intros [[root w] [Hin Hc]]. apply andb_true_iff in Hc as [Hr Hp].
      right. exists root, w. split; [by apply list_elem_of_In | done].
    + intros [Hin | (root & w & Hin & Hr & Hp)].
      * apply map_has_spec in Hin. congruence.
      * exists (root, w). split; [by apply list_elem_of_In |].
        simpl. by rewrite Hr, Hp.
Qed.

(** ** Pruning *)

Lemma elem_of_map_delete k kv (m : list (string * watcher)) :
  kv ∈ map_delete k m ↔ kv ∈ m ∧ kv.1 ≠ k.
Proof. unfold map_delete. rewrite list_elem_of_filter. tauto. Qed.

Lemma prune_entry_eq path kv s : prune_entry path kv s = (Normal tt, pruned path kv s).
Proof. unfold prune_entry, pruned. by destruct (is_child_of path kv.1). Qed.

(** The pruning loop over the entries [l], started in [s]: which entries
    are left, and which handles were closed. *)
Lemma prune_loop path (l : list (string * watcher)) s :
  let s' := (forEach l (prune_entry path) s).2 in
  (∀ kv, kv ∈ watchers s' ↔
         kv ∈ watchers s ∧ ¬ (is_child_of path kv.1 = true ∧ kv.1 ∈ l.*1)) ∧
  (∀ c, c ∈ fs_log s → c ∈ fs_log s') ∧
  (∀ kv, kv ∈ l → is_child_of path kv.1 = true →
         FsRemoveAllListeners (handle kv.2) ∈ fs_log s' ∧ FsClose (handle kv.2) ∈ fs_log s').
Proof.
  revert s. induction l as [|[k w] l IH]; intros s.
  - simpl. split; [|split].
    + intros kv. split; [intros H; split; [done|] | tauto].
      intros [_ H0]. by apply elem_of_nil in H0.
    + done.
    + intros kv H. by apply elem_of_nil in H.
  - cbn [forEach]. rewrite (bind_normal _ _ _ _ _ (prune_entry_eq path (k, w) s)).
    specialize (IH (pruned path (k, w) s)). cbv zeta in *.
    destruct IH as (IHw & IHlog & IHclose).
    unfold pruned in *. simpl in *.
    destruct (is_child_of path k) eqn:Hc; simpl in *.
    + split; [|split].
      * intros kv. rewrite IHw, elem_of_map_delete. split.
        -- intros [[Hin Hne] Hn]. split; [done|]. intros [Hck Hk].
           apply elem_of_cons in Hk as [Hk|Hk]; [done | tauto].
        -- intros [Hin Hn]. split; [split; [done|] |].
           ++ intros Hk. apply Hn. split; [by rewrite Hk | rewrite Hk; left].
           ++ intros [Hck Hk]. apply Hn. split; [done | by right].
      * intros c Hin. apply IHlog. apply elem_of_app. by left.
      * intros kv Hin Hck. apply elem_of_cons in Hin as [->|Hin]; [|by apply IHclose].
        simpl. split; apply IHlog; apply elem_of_app; right.
        -- left.
        -- right. left.
    + split; [|split].
      * intros kv. rewrite IHw. split.
        -- intros [Hin Hn]. split; [done|]. intros [Hck Hk].
           apply elem_of_cons in Hk as [Hk|Hk]; [congruence | tauto].
        -- intros [Hin Hn]. split; [done|]. intros [Hck Hk]. apply Hn.
           split; [done | by right].
      * done.
      * intros kv Hin Hck. apply elem_of_cons in Hin as [->|Hin]; [simpl in Hck; congruence|].
        by apply IHclose.
Qed.

Lemma removeWatchedChildren_unfold path s :
  removeWatchedChildren path s = forEach (watchers s) (prune_entry path) s.
Proof. reflexivity. Qed.

Lemma map_set_fresh k v (m : list (string * watcher)) :
  map_has k m = false → map_set k v m = (m ++ [(k, v)])%list.
Proof.
  induction m as [|[k' v'] m IH]; simpl; [done|].
  intros H. apply orb_false_iff in H as [Hk Hm].
  rewrite Hk. by rewrite IH.
Qed.

(** ** The two registry claims *)

(** C5.  [watchPath(p)] on a path that has its own entry, or that starts
    with the root of a recursive entry, returns at once: the call changes
    nothing at all, whatever [recursive] is, and [watchedPaths] keeps its
    length. *)
Theorem watchPath_covered_is_noop path rec s :
  (path ∈ watchedPaths s ∨
   ∃ root w, (root, w) ∈ watchers s ∧ recursive w = true ∧
             StringPrototypeStartsWith path root = true) →
  watchPath E path rec s = (Normal tt, s) ∧
  length (watchedPaths (exec (watchPath E path rec) s)) = length (watchedPaths s).
Proof.
  intros Hcov. apply isPathWatched_spec in Hcov.
  assert (Heq : watchPath E path rec s = (Normal tt, s)).
  { unfold watchPath, bind, get. by rewrite Hcov. }
  split; [exact Heq|]. unfold exec. by rewrite Heq.
Qed.

(** What [watchPath] does on a path that is not covered and that the fs
    primitive accepts. *)
Lemma watchPath_fresh path rec s :
  isPathWatched path s = false →
  fs_watch_ok E path rec = true →
  let h := length (fs_log s) in
  let s1 := set_watchers (watchers s ++ [(path, {| handle := h; recursive := rec |})])%list
              (set_fs_log (fs_log s ++ [FsWatch path rec; FsOnChange h path rec])%list s) in
  watchPath E path rec s =
    if rec then removeWatchedChildren path s1 else (Normal tt, s1).
Proof.
  intros Hcov Hok. unfold watchPath, bind, get, fs_watch. rewrite Hcov, Hok. simpl.
  assert (Hhas : map_has path (watchers s) = false).
  { unfold isPathWatched in Hcov. by destruct (map_has path (watchers s)). }
  rewrite (map_set_fresh _ _ _ Hhas).
  rewrite <- (app_assoc (fs_log s) [FsWatch path rec] [FsOnChange _ path rec]). simpl.
  destruct rec; simpl; [|done].
  by destruct (removeWatchedChildren path _) as [[[]|e] s2].
Qed.

(** C6.  A recursive watch on [p], where [p] is not covered and the fs
    primitive accepts it, registers [p], and every entry on a strict
    descendant [d] of [p] is stopped (its listeners removed, its handle
    closed) and removed from [watchedPaths]. *)
Theorem watchPath_recursive_prunes_descendants p d w s :
  (d, w) ∈ watchers s →
  d ≠ p →
  StringPrototypeStartsWith d p = true →
  isPathWatched p s = false →
  fs_watch_ok E p true = true →
  let s' := exec (watchPath E p true) s in
  returns (watchPath E p true) s = true ∧
  p ∈ watchedPaths s' ∧
  (d ∉ watchedPaths s') ∧
  FsRemoveAllListeners (handle w) ∈ fs_log s' ∧
  FsClose (handle w) ∈ fs_log s'.
Proof.
  intros Hd Hne Hpre Hcov Hok. cbv zeta. unfold exec, returns.
  rewrite (watchPath_fresh p true s Hcov Hok). cbv zeta.
  set (h := length (fs_log s)).
  set (e := {| handle := h; recursive := true |}).
  set (s1 := set_watchers _ _).
  rewrite removeWatchedChildren_unfold.
  assert (Hret : ∀ l s0, (forEach l (prune_entry p) s0).1 = Normal tt).
  { induction l as [|kv l IH]; intros s0; [done|]. cbn [forEach].
    rewrite (bind_normal _ _ _ _ _ (prune_entry_eq p kv s0)). apply IH. }
  destruct (prune_loop p (watchers s1) s1) as (Hw & Hlog & Hclose).
  assert (Hchild : is_child_of p d = true).
  { unfold is_child_of. rewrite Hpre.
    destruct (String.eqb_spec p d) as [->|]; [done | done]. }
  assert (Hself : is_child_of p p = false).
  { unfold is_child_of. by rewrite String.eqb_refl. }
  assert (Hd1 : (d, w) ∈ watchers s1).
  { subst s1. simpl. apply elem_of_app. by left. }
  split; [by rewrite Hret|]. split; [|split].
  - unfold watchedPaths. apply list_elem_of_fmap. exists (p, e). split; [done|].
    apply Hw. split.
    + subst s1. simpl. apply elem_of_app. right. left.
    + simpl. intros [Hc _]. congruence.
  - unfold watchedPaths. intros Hin. apply list_elem_of_fmap in Hin as [[d' w'] [Heq Hin]].
    simpl in Heq. subst d'. apply Hw in Hin as [Hin Hn]. apply Hn. split; [done|].
    simpl. apply list_elem_of_fmap. by exists (d, w).
  - by apply (Hclose (d, w)).
Qed.

End Registry.

(** * DependencyGraph and IPCRelay: guards and error handling *)

Section Relay.

Variable E : env.

(** C10.  [filterFile] on a falsy [file] returns at its first line: for
    every state and every owner the call leaves the whole state as it was
    (no watch requested, the filtered files, both directions of the owner
    graph and everything else untouched). *)
Theorem filterFile_falsy_is_noop file owner s :
  truthy file = false →
  filterFile E file owner s = (Normal tt, s).
Proof. intros Hf. unfold filterFile. by rewrite Hf. Qed.

(** ** destroyIPC *)

(** C4, amended.  On a watcher that has no upstream channel (the only
    watchers for which [watchChildProcessModules] skips the pairing),
    [destroyIPC(child)] raises nothing and changes nothing, for every
    child. *)
Theorem destroyIPC_without_passthrough_is_noop child s :
  wantsPassthroughIPC s = false →
  destroyIPC child s = (Normal tt, s).
Proof. intros Hw. unfold destroyIPC, bind, get. by rewrite Hw. Qed.

(** With an upstream channel, [destroyIPC] on a child that was never
    paired dereferences the missing [_ipcMessages]. *)
Lemma destroyIPC_unpaired_throws child s :
  wantsPassthroughIPC s = true →
  unpaired child s →
  destroyIPC child s = (Throw TypeError, s).
Proof.
  intros Hw Hu. unfold destroyIPC, bind, get. rewrite Hw. simpl.
  unfold unpaired in Hu. by rewrite Hu.
Qed.

(** ** The handler of child messages *)

Lemma process_send_message_same {B} (f : state → B) message :
  (∀ x s, f (set_process_sent x s) = f s) →
  steps (same f) (process_send_message E message).
Proof.
  intros H. unfold process_send_message. steps_structure.
  apply (steps_modify (same f)). intros s. unfold same. auto.
Qed.

Lemma register_reports_same {B} (f : state → B) key message :
  (∀ x s, f (set_fs_log x s) = f s) →
  (∀ x s, f (set_watchers x s) = f s) →
  (∀ x s, f (set_filter_log x s) = f s) →
  (∀ x s, f (set_filteredFiles x s) = f s) →
  (∀ x s, f (set_heap x s) = f s) →
  (∀ x s, f (set_depencencyOwners x s) = f s) →
  (∀ x s, f (set_ownerDependencies x s) = f s) →
  steps (same f) (register_reports E key message).
Proof.
  intros H1 H2 H3 H4 H5 H6 H7.
  unfold register_reports, get_property, fileURLToPath_call.
  steps_structure; by apply filterFile_same.
Qed.

Lemma module_reports_returns key message s :
  (module_reports E key message s).1 = Normal tt.
Proof.
  unfold module_reports, try_catch.
  by destruct (bind _ _ s) as [[[]|e] s'].
Qed.

Lemma module_reports_children key message :
  steps (same children) (module_reports E key message).
Proof.
  unfold module_reports. steps_structure.
  - by apply register_reports_same.
  - by apply process_send_message_same.
Qed.

(** C9.  The handler installed by [watchChildProcessModules] returns
    normally on every message value, and it leaves every child's listener
    list (so its own registration) as it was; hence any sequence of
    messages is handled to its end, each message in turn. *)
Theorem module_reports_never_raises key :
  (∀ message s,
     (module_reports E key message s).1 = Normal tt ∧
     children (exec (module_reports E key message) s) = children s) ∧
  (∀ messages s,
     (forEach messages (module_reports E key) s).1 = Normal tt ∧
     exec (forEach messages (module_reports E key)) s =
       fold_left (λ s message, exec (module_reports E key message) s) messages s).
Proof.
  split.
  - intros message s. split; [apply module_reports_returns|].
    apply (module_reports_children key message s).
  - intros messages. induction messages as [|m ms IH]; intros s; [done|].
    cbn [forEach fold_left]. unfold exec in *.
    pose proof (module_reports_returns key m s) as Hm.
    destruct (module_reports E key m s) as [c s1] eqn:Heq. simpl in Hm. subst c.
    rewrite (bind_normal _ _ _ _ _ Heq). simpl. apply IH.
Qed.

Lemma bind_inv_normal {A B} (m : M A) (k : A → M B) s b s' :
  bind m k s = (Normal b, s') →
  ∃ a s1, m s = (Normal a, s1) ∧ k a s1 = (Normal b, s').
Proof.
  unfold bind. destruct (m s) as [[a|e] s1]; [|done]. intros H. by exists a, s1.
Qed.

Lemma get_property_inv message key s v s' :
  get_property message key s = (Normal v, s') →
  s' = s ∧
  v = match message with
      | VObj props => default VUndefined (assoc key props)
      | _ => VUndefined
      end.
Proof. unfold get_property. destruct message; cbv [ret throw]; intros H; by simplify_eq. Qed.

(** The value of [sendInitial] when the registrations complete: an array
    was found under one of the two keys, empty or not. *)
Lemma register_reports_value key message s b s' :
  register_reports E key message s = (Normal b, s') →
  b = has_report_list message.
Proof.
  unfold register_reports. intros H.
  apply bind_inv_normal in H as (required & s1 & Hreq & H).
  apply get_property_inv in Hreq as [-> Hreq].
  apply bind_inv_normal in H as (b1 & s2 & Hb1 & H).
  assert (b1 = ArrayIsArray required) as ->.
  { destruct (ArrayIsArray required).
    - apply bind_inv_normal in Hb1 as (? & ? & _ & Hb1). cbv [ret] in Hb1. by simplify_eq.
    - cbv [ret] in Hb1. by simplify_eq. }
  apply bind_inv_normal in H as (imported & s3 & Himp & H).
  apply get_property_inv in Himp as [-> Himp].
  assert (b = ArrayIsArray required || ArrayIsArray imported) as ->.
  { destruct (ArrayIsArray imported).
    - apply bind_inv_normal in H as (? & ? & _ & H). cbv [ret] in H. simplify_eq.
      by rewrite orb_true_r.
    - cbv [ret] in H. simplify_eq. by rewrite orb_false_r. }
  subst. unfold has_report_list. by destruct message.
Qed.

(** C3, amended.  Handling one child message adds at most one entry to what
    was sent upstream, and it adds the ["watch:restarted"] notification
    exactly when [process.send] exists, the message holds an array (empty
    or not) under ["watch:require"] or ["watch:import"], and every listed
    entry was registered without an exception. *)
Theorem module_reports_restarted_iff key message s :
  let s' := exec (module_reports E key message) s in
  (process_sent s' = (process_sent s ++ [watch_restarted])%list ∨
   process_sent s' = process_sent s) ∧
  (process_sent s' = (process_sent s ++ [watch_restarted])%list ↔
   process_send E = true ∧
   has_report_list message = true ∧
   returns (register_reports E key message) s = true).
Proof.
  cbv zeta. unfold exec, returns, module_reports, try_catch, bind.
  pose proof (register_reports_same process_sent key message
                ltac:(done) ltac:(done) ltac:(done) ltac:(done)
                ltac:(done) ltac:(done) ltac:(done) s) as Hsame.
  unfold same in Hsame.
  destruct (register_reports E key message s) as [[b|e] s1] eqn:Hreg; simpl in *.
  - apply register_reports_value in Hreg as ->.
    unfold when, process_send_message.
    destruct (has_report_list message), (process_send E); simpl; rewrite ?Hsame.
    + split; [by left | done].
    + split; [by right|]. split; [|intros (? & _); done].
      intros H. apply (f_equal length) in H. rewrite length_app in H. simpl in H. lia.
    + split; [by right|]. split; [|intros (_ & ? & _); done].
      intros H. apply (f_equal length) in H. rewrite length_app in H. simpl in H. lia.
    + split; [by right|]. split; [|intros (? & _); done].
      intros H. apply (f_equal length) in H. rewrite length_app in H. simpl in H. lia.
  - rewrite Hsame. split; [by right|]. split; [|intros (_ & _ & ?); done].
    intros H. apply (f_equal length) in H. rewrite length_app in H. simpl in H. lia.
Qed.

End Relay.

(** * ChangeDebouncer *)

Section Debouncer.

Variable E : env.

(** ** What one notification and one tick of the clock do *)

Lemma onChange_eq trigger s :
  onChange trigger s = (Normal tt, if discards trigger s then s else notified trigger s).
Proof.
  unfold onChange, discards, bind, get.
  destruct (bool_decide (trigger ∈ throttling s)); simpl; [done|].
  by destruct (String.eqb (mode s) "filter" && negb (bool_decide (trigger ∈ filteredFiles s))).
Qed.

Lemma fs_change_eq h fileName s :
  fs_change E h fileName s =
    match raw_trigger E h fileName s with
    | Some trigger => onChange trigger s
    | None => (Normal tt, s)
    end.
Proof. unfold fs_change, bind, get. by destruct (raw_trigger E h fileName s). Qed.

Lemma elem_of_unthrottle l th x :
  x ∈ unthrottle l th ↔ x ∈ th ∧ x ∉ l.*2.
Proof.
  unfold unthrottle. revert th. induction l as [|tm l IH]; intros th; simpl.
  - split; [intros H; split; [done|] | tauto]. apply not_elem_of_nil.
  - rewrite IH. rewrite elem_of_difference, not_elem_of_cons, elem_of_singleton. tauto.
Qed.

Lemma unthrottle_loop l s :
  forEach l (λ tm, modify (λ s, set_throttling (throttling s ∖ {[tm.2]}) s)) s =
    (Normal tt, set_throttling (unthrottle l (throttling s)) s).
Proof.
  revert s. induction l as [|tm l IH]; intros s; simpl.
  - unfold ret. f_equal. by destruct s.
  - unfold bind at 1, modify at 1. rewrite IH. simpl. done.
Qed.

Lemma advance_eq dt s : advance dt s = (Normal tt, ticked dt s).
Proof.
  unfold advance, bind, get, modify. simpl.
  rewrite unthrottle_loop. simpl. done.
Qed.

End Debouncer.

(** * Runs: what every action preserves *)

Ltac unfold_methods :=
  unfold step, fs_change, onChange, emit_changed, setTimeout_unthrottle, advance,
    child_message, process_message, run_listener, module_reports, register_reports,
    get_property, fileURLToPath_call, process_send_message, child_send,
    watchChildProcessModules, destroyIPC, setupIPC, new_closure, update_child,
    unfilterFilesOwnedBy, clearFileFilters, clear, filterFile, new_SafeSet,
    watchPath, fs_watch, removeWatchedChildren, unwatch.

Section Runs.

Variable E : env.

Lemma run_steps (R : relation state) `{!PreOrder R} acts :
  (∀ a, steps R (step E a)) → ∀ s, R s (run E acts s).
Proof.
  intros Hstep. induction acts as [|a acts IH]; intros s; simpl; [reflexivity|].
  etransitivity; [apply (Hstep a s) | apply IH].
Qed.

Lemma run_invariant (I : state → Prop) acts :
  (∀ a s, I s → I (exec (step E a) s)) → ∀ s, I s → I (run E acts s).
Proof.
  intros Hstep. induction acts as [|a acts IH]; intros s Hs; simpl; [done|].
  apply IH, Hstep, Hs.
Qed.

(** No action writes the configuration. *)
Lemma step_config a : steps (same config) (step E a).
Proof. destruct a; unfold_methods; frame. Qed.

(** Only notifications and the clock write the debouncer's data. *)
Lemma step_debounce a :
  match a with FsChange _ _ | Advance _ => False | _ => True end →
  steps (same debounce) (step E a).
Proof. destruct a; intros Ha; try done; unfold_methods; frame. Qed.

(** Notifications and the clock leave everything else alone. *)
Lemma fs_change_rest h fileName :
  steps (same (λ s, (registry s, filters s, graph s, relay s))) (fs_change E h fileName).
Proof. unfold_methods; frame. Qed.

Lemma advance_rest dt :
  steps (same (λ s, (registry s, filters s, graph s, relay s))) (advance dt).
Proof. unfold_methods; frame. Qed.

(** ** The filter only holds files that went through filterFile *)

#[global] Instance filter_sound_preorder : PreOrder filter_sound.
Proof.
  split.
  - intros s. split; auto.
  - intros s1 s2 s3 [H12 L12] [H23 L23]. split; [|by auto].
    intros x Hx. destruct (H23 x Hx) as [H|H]; [|by right].
    destruct (H12 x H) as [H'|H']; [by left | right; auto].
Qed.

#[global] Instance adds_at_most_preorder f : PreOrder (adds_at_most f).
Proof.
  split.
  - intros s. split; [done | set_solver].
  - intros s1 s2 s3 [L12 H12] [L23 H23]. split; [congruence | set_solver].
Qed.

Lemma same_filters_adds_at_most f s s' : same filters s s' → adds_at_most f s s'.
Proof.
  unfold same, filters. intros H. injection H as Hf Hl. split; [done|]. rewrite Hf. set_solver.
Qed.

Lemma steps_weaken {A} (R R' : relation state) (m : M A) :
  (∀ s s', R s s' → R' s s') → steps R m → steps R' m.
Proof. intros HR Hm s. apply HR, Hm. Qed.

Lemma filterFile_filter_sound file owner : steps filter_sound (filterFile E file owner).
Proof.
  unfold filterFile. destruct (negb (truthy file)); [apply (steps_ret filter_sound)|].
  destruct file; try apply (steps_throw filter_sound).
  intros s0. unfold bind at 1, modify at 1.
  set (s1 := set_filter_log _ s0).
  match goal with |- filter_sound _ (?m s1).2 => assert (Hm : steps (adds_at_most s) m) end.
  { steps_structure;
      try (apply (steps_weaken (same filters)); [apply same_filters_adds_at_most|];
           first [ apply watchPath_same; done | solve [unfold new_SafeSet; frame] ]).
    all: apply (steps_modify (adds_at_most s)); intros ?; split; simpl; [done | set_solver]. }
  destruct (Hm s1) as [Hlog Hff]. split.
  - intros x Hx. apply Hff in Hx. apply elem_of_union in Hx as [Hx|Hx].
    + right. apply elem_of_singleton in Hx as ->. rewrite Hlog. subst s1. simpl.
      rewrite fmap_app. apply elem_of_app. right. simpl. left.
    + by left.
  - intros x Hx. rewrite Hlog. subst s1. simpl. rewrite fmap_app. apply elem_of_app. by left.
Qed.

Lemma step_filter_sound a : steps filter_sound (step E a).
Proof.
  destruct a; try apply filterFile_filter_sound;
    unfold step, fs_change, onChange, emit_changed, setTimeout_unthrottle, advance,
      child_message, process_message, run_listener, module_reports, register_reports,
      get_property, fileURLToPath_call, process_send_message, child_send,
      watchChildProcessModules, destroyIPC, setupIPC, new_closure, update_child,
      unfilterFilesOwnedBy, clearFileFilters, clear,
      watchPath, fs_watch, removeWatchedChildren, unwatch;
    steps_structure; try apply filterFile_filter_sound;
    apply (steps_modify filter_sound); intros ?; split; simpl; auto; set_solver.
Qed.

(** In every reachable state, a filtered file is one that [filterFile] was
    called on. *)
Lemma filteredFiles_logged throttle mode acts x :
  x ∈ filteredFiles (run E acts (initial E throttle mode)) →
  x ∈ (filter_log (run E acts (initial E throttle mode))).*1.
Proof.
  intros Hx.
  destruct (run_steps filter_sound acts step_filter_sound (initial E throttle mode)) as [H _].
  destruct (H x Hx) as [H0|H0]; [|done]. simpl in H0. set_solver.
Qed.

Lemma run_config acts s : config (run E acts s) = config s.
Proof. apply (run_steps (same config) acts step_config s). Qed.

(** ** The throttle window *)

Lemma throttle_inv_initial throttle mode : throttle_inv (initial E throttle mode).
Proof.
  split; simpl.
  - constructor.
  - intros tm H. by apply elem_of_nil in H.
  - intros e H. by apply elem_of_nil in H.
  - intros i j e1 e2 _ H. by rewrite lookup_nil in H.
Qed.

Lemma separated_snoc d l e :
  separated d l →
  (∀ e1, e1 ∈ l → trigger_of e1 = trigger_of e → (at_time e1 + d ≤ at_time e)%nat) →
  separated d (l ++ [e]).
Proof.
  intros Hsep Hnew i j e1 e2 Hij H1 H2 Heq.
  destruct (decide (j < length l)%nat) as [Hj|Hj].
  - rewrite lookup_app_l in H1 by lia. rewrite lookup_app_l in H2 by lia.
    by apply (Hsep i j).
  - assert (j = length l) as ->.
    { apply lookup_lt_Some in H2. rewrite length_app in H2. simpl in H2. lia. }
    rewrite lookup_app_l in H1 by lia.
    rewrite lookup_app_r, Nat.sub_diag in H2 by lia. simpl in H2. simplify_eq.
    apply Hnew; [|done]. by eapply list_elem_of_lookup_2.
Qed.

Lemma throttle_inv_notified trigger s :
  throttle_inv s → trigger ∉ throttling s → throttle_inv (notified trigger s).
Proof.
  intros [Hnd Hth Hwin Hsep] Hfree.
  assert (Hnotimer : ∀ due, (due, trigger) ∉ timers s).
  { intros due Hin. by apply Hfree, (Hth (due, trigger)). }
  split; simpl.
  - rewrite fmap_app. simpl. apply NoDup_app. split; [done|]. split.
    + intros x Hx Hx'. apply list_elem_of_singleton in Hx' as ->.
      apply list_elem_of_fmap in Hx as [[due t] [Heq Hin]]. simpl in Heq. subst t.
      by apply (Hnotimer due).
    + apply NoDup_singleton.
  - intros tm Hin. apply elem_of_app in Hin as [Hin|Hin].
    + apply elem_of_union. right. by apply Hth.
    + apply list_elem_of_singleton in Hin as ->. simpl. apply elem_of_union. left.
      by apply elem_of_singleton.
  - intros e Hin. apply elem_of_app in Hin as [Hin|Hin].
    + destruct (Hwin e Hin) as [H|[due [H1 H2]]]; [by left|].
      right. exists due. split; [|done]. apply elem_of_app. by left.
    + apply list_elem_of_singleton in Hin as ->. simpl. right.
      exists (now s + throttle s). split; [|lia]. apply elem_of_app. right. left.
  - apply separated_snoc; [done|]. simpl. intros e1 Hin Heq.
    destruct (Hwin e1 Hin) as [H|[due [H1 H2]]]; [lia|].
    rewrite Heq in H1. by destruct (Hnotimer due).
Qed.

Lemma throttle_inv_ticked dt s : throttle_inv s → throttle_inv (ticked dt s).
Proof.
  intros [Hnd Hth Hwin Hsep]. split; simpl.
  - eapply sublist_NoDup; [exact Hnd | apply fmap_sublist, sublist_filter].
  - intros tm Hin. apply list_elem_of_filter in Hin as [Hdue Hin].
    apply elem_of_unthrottle. split; [by apply Hth|].
    intros Hin'. apply list_elem_of_fmap in Hin' as [tm' [Heq Hin']].
    apply list_elem_of_filter in Hin' as [Hdue' Hin'].
    assert (tm = tm') as ->; [|by destruct (is_due (now s + dt) tm')].
    (* two pending timeouts of one trigger are the same timeout *)
    apply list_elem_of_lookup in Hin as [i Hi]. apply list_elem_of_lookup in Hin' as [j Hj].
    assert (i = j) as ->; [|congruence].
    apply (NoDup_lookup _ i j tm.2 Hnd); rewrite list_lookup_fmap.
    + by rewrite Hi.
    + rewrite Hj. simpl. by rewrite Heq.
  - intros e Hin. destruct (Hwin e Hin) as [H|[due [H1 H2]]]; [left; lia|].
    destruct (is_due (now s + dt) (due, trigger_of e)) eqn:Hdue.
    + left. unfold is_due in Hdue. simpl in Hdue. apply Nat.leb_le in Hdue. lia.
    + right. exists due. split; [|done]. apply list_elem_of_filter. split; [|done].
      by rewrite Hdue.
  - done.
Qed.

Lemma throttle_inv_same s s' :
  debounce s' = debounce s → config s' = config s → throttle_inv s → throttle_inv s'.
Proof.
  unfold debounce, config. intros Hd Hc [Hnd Hth Hwin Hsep].
  injection Hd as H1 H2 H3 H4. injection Hc as H5 _ _.
  split; rewrite ?H1, ?H2, ?H3, ?H4, ?H5; done.
Qed.

Lemma throttle_inv_step a s : throttle_inv s → throttle_inv (exec (step E a) s).
Proof.
  intros Hinv.
  destruct a;
    try (apply (throttle_inv_same s); [| apply (step_config _ s) | done];
         match goal with |- context [step E ?a] => by apply (step_debounce a) end).
  - unfold exec. simpl. rewrite fs_change_eq.
    destruct (raw_trigger E h fileName s) as [t|]; [|done].
    rewrite onChange_eq. simpl. destruct (discards t s) eqn:Hd; [done|].
    apply throttle_inv_notified; [done|].
    unfold discards in Hd. apply orb_false_iff in Hd as [Hd _].
    by apply bool_decide_eq_false in Hd.
  - unfold exec. simpl. rewrite advance_eq. by apply throttle_inv_ticked.
Qed.

Lemma throttle_inv_run throttle mode acts :
  throttle_inv (run E acts (initial E throttle mode)).
Proof. apply run_invariant; [apply throttle_inv_step | apply throttle_inv_initial]. Qed.

End Runs.

(** * WatchRegistry: one entry per path *)

#[global] Instance keeps_unique_preorder : PreOrder keeps_unique.
Proof.
  split.
  - intros s H. exact H.
  - intros s1 s2 s3 H12 H23 H. apply H23, H12, H.
Qed.

Section Unique.

Variable E : env.

Lemma map_set_keys k v (m : list (string * watcher)) :
  (map_set k v m).*1 = if map_has k m then m.*1 else (m.*1 ++ [k])%list.
Proof.
  induction m as [|[k' v'] m IH]; [done|]. cbn [map_set map_has existsb fst].
  destruct (String.eqb_spec k k') as [->|Hne]; [done|].
  rewrite !fmap_cons, IH. fold (map_has k m). simpl. by destruct (map_has k m).
Qed.

Lemma map_set_unique k v (m : list (string * watcher)) :
  NoDup m.*1 → NoDup (map_set k v m).*1.
Proof.
  intros Hm. rewrite map_set_keys. destruct (map_has k m) eqn:Hk; [done|].
  apply NoDup_app. split; [done|]. split; [|apply NoDup_singleton].
  intros x Hx Hx'. apply list_elem_of_singleton in Hx' as ->.
  apply map_has_spec in Hx. congruence.
Qed.

Lemma map_delete_unique k (m : list (string * watcher)) :
  NoDup m.*1 → NoDup (map_delete k m).*1.
Proof.
  intros Hm. eapply sublist_NoDup; [exact Hm|].
  apply fmap_sublist, sublist_filter.
Qed.

(** At most one entry per path, in every state a watcher can reach (the
    first invariant of the data model); this is what lets the loop of
    [#removeWatchedChildren] be read off the entries present at its start. *)
Lemma step_keeps_unique a : steps keeps_unique (step E a).
Proof.
  destruct a; unfold_methods; steps_structure;
    apply (steps_modify keeps_unique); intros ?; unfold keeps_unique, watchedPaths; simpl;
    first [ done | apply map_set_unique | apply map_delete_unique | intros _; constructor ].
Qed.

Lemma watchedPaths_unique throttle mode acts :
  NoDup (watchedPaths (run E acts (initial E throttle mode))).
Proof.
  apply (run_steps E keeps_unique acts step_keeps_unique (initial E throttle mode)).
  constructor.
Qed.

End Unique.

(** * The two debouncer claims *)

Section DebouncerClaims.

Variable E : env.

Lemma raw_trigger_fs_log h fileName s s' :
  fs_log s' = fs_log s → raw_trigger E h fileName s' = raw_trigger E h fileName s.
Proof. intros H. unfold raw_trigger, change_listener. by rewrite H. Qed.

Lemma exec_fs_change h fileName t s :
  raw_trigger E h fileName s = Some t →
  exec (fs_change E h fileName) s = if discards t s then s else notified t s.
Proof.
  intros Ht. unfold exec. rewrite fs_change_eq, Ht, onChange_eq. done.
Qed.

Lemma exec_advance dt s : exec (advance dt) s = ticked dt s.
Proof. unfold exec. by rewrite advance_eq. Qed.

(** C8.  In filter mode, in any state a watcher can reach, a notification
    whose trigger no call of [filterFile] ever named emits nothing.  In all
    mode, a notification whose trigger is not throttled emits exactly one
    [changed] event, carrying the owners recorded for the trigger. *)
Theorem notification_filtering :
  (∀ throttle acts h fileName t,
     let s := run E acts (initial E throttle "filter") in
     raw_trigger E h fileName s = Some t →
     (∀ owner, (t, owner) ∉ filter_log s) →
     emitted (exec (fs_change E h fileName) s) = emitted s) ∧
  (∀ s h fileName t,
     mode s = "all" →
     raw_trigger E h fileName s = Some t →
     t ∉ throttling s →
     emitted (exec (fs_change E h fileName) s) =
       (emitted s ++ [changed_event t s])%list).
Proof.
  split.
  - intros throttle acts h fileName t s Ht Hnever.
    rewrite (exec_fs_change h fileName t s Ht).
    assert (Hd : discards t s = true); [|by rewrite Hd].
    unfold discards. apply orb_true_iff. right.
    pose proof (run_config E acts (initial E throttle "filter")) as Hc.
    fold s in Hc. unfold config in Hc. simpl in Hc. injection Hc as _ Hmode _.
    rewrite Hmode. simpl. apply negb_true_iff, bool_decide_eq_false.
    intros Hin. apply filteredFiles_logged in Hin.
    apply list_elem_of_fmap in Hin as [[t' owner] [Heq Hin]]. simpl in Heq. subst t'.
    by apply (Hnever owner).
  - intros s h fileName t Hmode Ht Hfree.
    rewrite (exec_fs_change h fileName t s Ht).
    assert (Hd : discards t s = false); [|by rewrite Hd].
    unfold discards. rewrite Hmode. simpl. rewrite orb_false_r.
    by apply bool_decide_eq_false.
Qed.

(** The window scenario, on any state in which the trigger has no pending
    timeout. *)
Lemma window_scenario h fileName t d1 d2 s :
  (∀ due, (due, t) ∉ timers s) →
  raw_trigger E h fileName s = Some t →
  discards t s = false →
  (d1 < throttle s)%nat →
  (throttle s ≤ d1 + d2)%nat →
  let s1 := exec (fs_change E h fileName) s in
  let s3 := exec (fs_change E h fileName) (exec (advance d1) s1) in
  let s5 := exec (fs_change E h fileName) (exec (advance d2) s3) in
  emitted s1 = (emitted s ++ [changed_event t s])%list ∧
  emitted s3 = emitted s1 ∧
  emitted s5 =
    (emitted s3 ++ [{| at_time := now s + d1 + d2; trigger_of := t;
                       payload := depencencyOwners s !! t |}])%list.
Proof.
  intros Hnotimer Ht Hd Hd1 Hd2. cbv zeta.
  rewrite (exec_fs_change h fileName t s Ht), Hd, exec_advance.
  set (s1 := notified t s). set (s2 := ticked d1 s1).
  assert (Hmine : (now s + throttle s, t) ∈ timers s2).
  { subst s2 s1. simpl. apply list_elem_of_filter. split.
    - unfold is_due. simpl. apply negb_prop_intro. intros H.
      apply Is_true_true, Nat.leb_le in H. lia.
    - apply elem_of_app. right. left. }
  assert (Hth2 : t ∈ throttling s2).
  { subst s2 s1. simpl. apply elem_of_unthrottle. split; [set_solver|].
    intros Hin. apply list_elem_of_fmap in Hin as [[due t'] [Heq Hin]]. simpl in Heq. subst t'.
    apply list_elem_of_filter in Hin as [Hdue Hin].
    apply elem_of_app in Hin as [Hin|Hin]; [by apply (Hnotimer due)|].
    apply list_elem_of_singleton in Hin. simplify_eq.
    unfold is_due in Hdue. simpl in Hdue. apply Is_true_true, Nat.leb_le in Hdue. lia. }
  assert (Ht2 : raw_trigger E h fileName s2 = Some t).
  { rewrite <- Ht. by apply raw_trigger_fs_log. }
  assert (Hd2' : discards t s2 = true).
  { unfold discards. apply orb_true_iff. left. by apply bool_decide_eq_true. }
  rewrite (exec_fs_change h fileName t s2 Ht2), Hd2', exec_advance.
  set (s4 := ticked d2 s2).
  assert (Ht4 : raw_trigger E h fileName s4 = Some t).
  { rewrite <- Ht. by apply raw_trigger_fs_log. }
  assert (Hd4 : discards t s4 = false).
  { unfold discards in *. apply orb_false_iff in Hd as [_ Hd].
    apply orb_false_iff. split; [|exact Hd].
    apply bool_decide_eq_false. subst s4. simpl. rewrite elem_of_unthrottle.
    intros [_ Hn]. apply Hn. apply list_elem_of_fmap. exists (now s + throttle s, t).
    split; [done|]. apply list_elem_of_filter. split; [|done].
    unfold is_due. simpl. apply Is_true_true, Nat.leb_le.
    subst s2 s1. simpl. lia. }
  rewrite (exec_fs_change h fileName t s4 Ht4), Hd4.
  split; [done|]. split; [done|].
  subst s4 s2 s1. reflexivity.
Qed.

(** C7.  In every state [s] a watcher can reach: the emissions of one
    trigger are at least the throttle delay apart; and if a notification
    for a trigger that is not throttled and passes the filter arrives in
    [s], a second one [d1] later, within the delay, and a third one
    [d1 + d2] later, past the delay, then the first emits one event, the
    second nothing, and the third one event again. *)
Theorem throttle_window throttle mode acts :
  let s := run E acts (initial E throttle mode) in
  separated throttle (emitted s) ∧
  ∀ h fileName t d1 d2,
    raw_trigger E h fileName s = Some t →
    t ∉ throttling s →
    (mode = "filter" → t ∈ filteredFiles s) →
    (d1 < throttle)%nat →
    (throttle ≤ d1 + d2)%nat →
    let s1 := exec (fs_change E h fileName) s in
    let s3 := exec (fs_change E h fileName) (exec (advance d1) s1) in
    let s5 := exec (fs_change E h fileName) (exec (advance d2) s3) in
    emitted s1 = (emitted s ++ [changed_event t s])%list ∧
    emitted s3 = emitted s1 ∧
    emitted s5 =
      (emitted s3 ++ [{| at_time := now s + d1 + d2; trigger_of := t;
                         payload := depencencyOwners s !! t |}])%list.
Proof.
  intros s.
  pose proof (throttle_inv_run E throttle mode acts) as Hinv. fold s in Hinv.
  pose proof (run_config E acts (initial E throttle mode)) as Hc.
  fold s in Hc. unfold config in Hc. simpl in Hc. injection Hc as Hthr Hmode _.
  split.
  - rewrite <- Hthr. apply (emitted_separated s Hinv).
  - intros h fileName t d1 d2 Ht Hfree Hfilter Hd1 Hd2.
    apply window_scenario; rewrite ?Hthr; try done.
    + intros due Hin. by apply Hfree, (timers_throttled s Hinv (due, t)).
    + unfold discards. apply orb_false_iff. split; [by apply bool_decide_eq_false|].
      rewrite Hmode. destruct (String.eqb_spec mode "filter") as [Hm|Hm]; [|done].
      simpl. apply negb_false_iff, bool_decide_eq_true. by apply Hfilter.
Qed.

End DebouncerClaims.

(** * DependencyGraph *)

Section Graph.

Variable E : env.

(** ** What filterFile does to the graph *)

Ltac run_bind :=
  erewrite bind_normal by (cbv [new_SafeSet bind get modify ret]; reflexivity).

Lemma filterFile_eq f owner s :
  f ≠ "" →
  filterFile E (VStr f) owner s =
    match watch_for E f (set_filter_log (filter_log s ++ [(f, owner)]) s) with
    | (Normal _, s2) =>
        let s3 := set_filteredFiles ({[f]} ∪ filteredFiles s2) s2 in
        (Normal tt, if truthy_owner owner then linked f (default "" owner) s3 else s3)
    | (Throw e, s2) => (Throw e, s2)
    end.
Proof.
  intros Hf. apply String.eqb_neq in Hf. unfold filterFile. simpl. rewrite Hf. simpl.
  run_bind. fold (watch_for E f).
  destruct (watch_for E f _) as [[[]|e] s2] eqn:Hw.
  - rewrite (bind_normal _ _ _ _ _ Hw). run_bind.
    destruct (truthy_owner owner); simpl; [|done].
    run_bind. unfold linked, dependencies_of, heap_with, deref.
    destruct (ownerDependencies s2 !! f) as [a|] eqn:Ha; simpl; rewrite Ha.
    + run_bind. run_bind. run_bind. reflexivity.
    + run_bind. run_bind. run_bind. reflexivity.
  - by rewrite (bind_throw _ _ _ _ _ Hw).
Qed.

Lemma filterFile_records_pair f o s :
  f ≠ "" → o ≠ "" →
  returns (filterFile E (VStr f) (Some o)) s = true →
  let s' := exec (filterFile E (VStr f) (Some o)) s in
  f ∈ filteredFiles s' ∧ f ∈ OwnerToFiles s' o ∧ o ∈ FileToOwners s' f.
Proof.
  intros Hf Ho. cbv zeta. unfold returns, exec. rewrite (filterFile_eq f (Some o) s Hf).
  destruct (watch_for E f _) as [[[]|e] s2]; [|done]. intros _. simpl.
  apply String.eqb_neq in Ho. rewrite Ho. simpl.
  unfold OwnerToFiles, FileToOwners, deref. simpl.
  rewrite !lookup_insert_eq. simpl. set_solver.
Qed.

(** ** What unfilterFilesOwnedBy does *)

Lemma forget_loop l s :
  forEach l (λ dependency,
    modify (λ s, set_filteredFiles (filteredFiles s ∖ {[dependency]}) s) ;;;
    modify (λ s, set_depencencyOwners (delete dependency (depencencyOwners s)) s)) s =
  (Normal tt, fold_left (λ s d, forget d s) l s).
Proof.
  revert s. induction l as [|d l IH]; intros s; simpl; [done|].
  run_bind. rewrite IH. reflexivity.
Qed.

Lemma unfilterFilesOwnedBy_eq owners s :
  unfilterFilesOwnedBy owners s =
    (Normal tt, fold_left (λ s o, unfilter_owner o s) owners s).
Proof.
  unfold unfilterFilesOwnedBy. revert s.
  induction owners as [|o owners IH]; intros s; simpl; [done|].
  erewrite bind_normal; [apply IH|].
  run_bind. unfold unfilter_owner, OwnerToFiles.
  destruct (ownerDependencies s !! o) as [a|]; simpl.
  - erewrite bind_normal by apply forget_loop. reflexivity.
  - rewrite elements_empty. reflexivity.
Qed.

(** A loop of [forget] removes exactly the listed files. *)
Lemma forget_fold l s :
  let s' := fold_left (λ s d, forget d s) l s in
  (∀ x, x ∈ filteredFiles s' ↔ x ∈ filteredFiles s ∧ x ∉ l) ∧
  (∀ x, depencencyOwners s' !! x =
        if bool_decide (x ∈ l) then None else depencencyOwners s !! x) ∧
  ownerDependencies s' = ownerDependencies s ∧
  heap s' = heap s.
Proof.
  revert s. induction l as [|d l IH]; intros s; simpl.
  - split; [|split; [|done]].
    + intros x. split; [intros H; split; [done|apply not_elem_of_nil] | tauto].
    + done.
  - destruct (IH (forget d s)) as (Hff & Hdo & Hod & Hh). simpl in *.
    split; [|split; [|done]].
    + intros x. rewrite Hff, elem_of_difference, not_elem_of_cons, elem_of_singleton. tauto.
    + intros x. rewrite Hdo.
      destruct (decide (x = d)) as [->|Hne].
      * rewrite (bool_decide_eq_true_2 (d ∈ d :: l)) by left.
        rewrite lookup_delete_eq. by destruct (bool_decide (d ∈ l)).
      * rewrite lookup_delete_ne by done.
        destruct (bool_decide (x ∈ l)) eqn:Hl.
        -- apply bool_decide_eq_true in Hl. rewrite bool_decide_eq_true_2; [done | by right].
        -- apply bool_decide_eq_false in Hl. rewrite bool_decide_eq_false_2; [done|].
           rewrite not_elem_of_cons. tauto.
Qed.

(** One owner: its entry and the entries of its files are gone, the heap
    and the other owners' entries stay. *)
Lemma unfilter_owner_spec owner s :
  let s' := unfilter_owner owner s in
  (∀ x, x ∈ filteredFiles s' ↔
        x ∈ filteredFiles s ∧ (x ∉ OwnerToFiles s owner) ∧ x ≠ owner) ∧
  (∀ x, depencencyOwners s' !! x =
        if bool_decide (x ∈ OwnerToFiles s owner ∨ x = owner) then None
        else depencencyOwners s !! x) ∧
  ownerDependencies s' = delete owner (ownerDependencies s) ∧
  heap s' = heap s.
Proof.
  cbv zeta. unfold unfilter_owner.
  destruct (forget_fold (elements (OwnerToFiles s owner)) s) as (Hff & Hdo & Hod & Hh).
  cbv zeta in *. set (s1 := fold_left _ _ s) in *. simpl.
  split; [|split; [|split]].
  - intros x. rewrite elem_of_difference, Hff, elem_of_elements, elem_of_singleton. tauto.
  - intros x. destruct (decide (x = owner)) as [->|Hne].
    + rewrite lookup_delete_eq. rewrite bool_decide_eq_true_2; [done | by right].
    + rewrite lookup_delete_ne by done. rewrite Hdo.
      destruct (bool_decide (x ∈ elements (OwnerToFiles s owner))) eqn:Hl.
      * apply bool_decide_eq_true, elem_of_elements in Hl.
        rewrite bool_decide_eq_true_2; [done | by left].
      * apply bool_decide_eq_false in Hl. rewrite elem_of_elements in Hl.
        rewrite bool_decide_eq_false_2; [done | tauto].
  - by rewrite Hod.
  - done.
Qed.

(** The whole call: a listed owner loses its entry, and every file of its
    set leaves the filter and loses its owners. *)
Lemma unfilter_fold owners s :
  let s' := fold_left (λ s o, unfilter_owner o s) owners s in
  (∀ x, x ∈ filteredFiles s' → x ∈ filteredFiles s) ∧
  (∀ x, depencencyOwners s !! x = None → depencencyOwners s' !! x = None) ∧
  (∀ o, ownerDependencies s' !! o =
        if bool_decide (o ∈ owners) then None else ownerDependencies s !! o) ∧
  heap s' = heap s ∧
  (∀ o f, o ∈ owners → f ∈ OwnerToFiles s o →
          (f ∉ filteredFiles s') ∧ depencencyOwners s' !! f = None).
Proof.
  revert s. induction owners as [|o1 owners IH]; intros s; simpl.
  - split; [done|]. split; [done|]. split; [|split; [done|]].
    + done.
    + intros o f H. by apply elem_of_nil in H.
  - destruct (unfilter_owner_spec o1 s) as (Hff1 & Hdo1 & Hod1 & Hh1). cbv zeta in *.
    destruct (IH (unfilter_owner o1 s)) as (Hff & Hdo & Hod & Hh & Hgone).
    set (s1 := unfilter_owner o1 s) in *.
    split; [|split; [|split; [|split]]].
    + intros x Hx. apply Hff, Hff1 in Hx. tauto.
    + intros x Hx. apply Hdo. rewrite Hdo1, Hx. by destruct (bool_decide _).
    + intros o. rewrite Hod, Hod1.
      destruct (decide (o = o1)) as [->|Hne].
      * rewrite lookup_delete_eq, (bool_decide_eq_true_2 (o1 ∈ o1 :: owners)) by left.
        by destruct (bool_decide (o1 ∈ owners)).
      * rewrite lookup_delete_ne by done.
        destruct (bool_decide (o ∈ owners)) eqn:Hl.
        -- apply bool_decide_eq_true in Hl. rewrite bool_decide_eq_true_2; [done | by right].
        -- apply bool_decide_eq_false in Hl. rewrite bool_decide_eq_false_2; [done|].
           rewrite not_elem_of_cons. tauto.
    + congruence.
    + intros o f Ho Hf. destruct (decide (o = o1)) as [->|Hne].
      * split.
        -- intros Hx. apply Hff, Hff1 in Hx. tauto.
        -- apply Hdo. rewrite Hdo1. rewrite bool_decide_eq_true_2; [done | by left].
      * apply elem_of_cons in Ho as [Ho|Ho]; [done|].
        apply (Hgone o f Ho). unfold OwnerToFiles, deref in *.
        rewrite Hod1, lookup_delete_ne, Hh1 by done. exact Hf.
Qed.

(** ** What clear does *)

Lemma unwatch_loop l s :
  forEach l (λ kv, unwatch kv.2) s =
    (Normal tt, set_fs_log (fs_log s ++ closing l) s).
Proof.
  revert s. induction l as [|kv l IH]; intros s; simpl.
  - rewrite app_nil_r. by destruct s.
  - unfold unwatch at 1. run_bind. rewrite IH. simpl.
    by rewrite <- app_assoc.
Qed.

Lemma clear_eq s : clear s = (Normal tt, cleared s).
Proof.
  unfold clear. run_bind.
  erewrite bind_normal by apply unwatch_loop.
  reflexivity.
Qed.

(** ** The owner graph, as the code keeps it *)

(** C1, amended.  The graph is symmetric in a new watcher and after
    [clear]; [clearFileFilters] does not touch it; a call [filterFile(f, o)]
    that returns leaves [f] in the set of [o] and [o] in the set of [f];
    and [unfilterFilesOwnedBy] empties the set of every listed owner and,
    for every file of that set, the whole owner set of the file and its
    place in the filter. *)
Theorem owner_graph_by_construction :
  (∀ throttle mode, symmetric (initial E throttle mode)) ∧
  (∀ s, symmetric (exec clear s)) ∧
  (∀ s f o,
     OwnerToFiles (exec clearFileFilters s) o = OwnerToFiles s o ∧
     FileToOwners (exec clearFileFilters s) f = FileToOwners s f) ∧
  (∀ s f o,
     f ≠ "" → o ≠ "" →
     returns (filterFile E (VStr f) (Some o)) s = true →
     let s' := exec (filterFile E (VStr f) (Some o)) s in
     f ∈ OwnerToFiles s' o ∧ o ∈ FileToOwners s' f) ∧
  (∀ s owners o,
     o ∈ owners →
     let s' := exec (unfilterFilesOwnedBy owners) s in
     OwnerToFiles s' o = ∅ ∧
     ∀ f, f ∈ OwnerToFiles s o → FileToOwners s' f = ∅ ∧ f ∉ filteredFiles s').
Proof.
  split; [|split; [|split; [|split]]].
  - intros throttle mode f o. unfold OwnerToFiles, FileToOwners. simpl.
    rewrite !lookup_empty. done.
  - intros s f o. unfold exec. rewrite clear_eq.
    unfold OwnerToFiles, FileToOwners. simpl. rewrite !lookup_empty. done.
  - done.
  - intros s f o Hf Ho Hret.
    destruct (filterFile_records_pair f o s Hf Ho Hret) as (_ & H1 & H2). done.
  - intros s owners o Ho. cbv zeta. unfold exec. rewrite unfilterFilesOwnedBy_eq. simpl.
    destruct (unfilter_fold owners s) as (_ & _ & Hod & _ & Hgone). cbv zeta in *.
    split.
    + unfold OwnerToFiles. rewrite Hod, bool_decide_eq_true_2; done.
    + intros f Hf. destruct (Hgone o f Ho Hf) as [H1 H2].
      split; [|done]. unfold FileToOwners. by rewrite H2.
Qed.

End Graph.

(** * Scenarios

    The model evaluated on the concrete platforms and runs defined above. *)

Example posix_dirname_file : posix_dirname "/a/b.js" = "/a".
Proof. reflexivity. Qed.

Example file_url_path_file : file_url_path (VStr "file:///a/m.mjs") = Some "/a/m.mjs".
Proof. reflexivity. Qed.

(** ** The owner graph *)

(** C1 fails as stated: ["o2"] still lists the file, the file has no owner
    left. *)
Lemma unfilter_breaks_symmetry :
  "/a/x.js" ∈ OwnerToFiles shared_file_run "o2" ∧
  "o2" ∉ FileToOwners shared_file_run "/a/x.js".
Proof. split; by vm_compute. Qed.

Lemma owner_graph_by_construction_witness :
  "/a/x.js" ∈ OwnerToFiles
     (exec (filterFile linux_child (VStr "/a/x.js") (Some "o1")) shared_file_run) "o1" ∧
  "o1" ∈ FileToOwners
     (exec (filterFile linux_child (VStr "/a/x.js") (Some "o1")) shared_file_run) "/a/x.js".
Proof.
  apply (proj1 (proj2 (proj2 (proj2 (owner_graph_by_construction linux_child))))
           shared_file_run "/a/x.js" "o1"); [done | done | by vm_compute].
Defined.

(** C2, on the code: after [filterFile("/a/x.js", "o")],
    [filterFile("/a/y.js", "o")] and [unfilterFilesOwnedBy(["o"])] the
    first file is still filtered and still owned by ["o"], and a
    notification for it emits a [changed] event.  The second file is gone. *)
Lemma unfilter_keeps_earlier_file :
  "/a/x.js" ∈ filteredFiles two_files_run ∧
  FileToOwners two_files_run "/a/x.js" = {["o"]} ∧
  ("/a/y.js" ∉ filteredFiles two_files_run) ∧
  raw_trigger linux_child 0 "x.js" two_files_run = Some "/a/x.js" ∧
  emitted (exec (fs_change linux_child 0 "x.js") two_files_run) =
    [{| at_time := 0; trigger_of := "/a/x.js"; payload := Some {["o"]} |}].
Proof. repeat split; by vm_compute. Qed.

(** ** The relay *)

(** C3 fails as stated: a message whose only list is empty is answered by
    ["watch:restarted"]. *)
Lemma empty_list_sends_restarted :
  array_elems (default VUndefined (assoc "watch:require" [("watch:require", VArr [])])) = [] ∧
  assoc "watch:import" [("watch:require", VArr [])] = None ∧
  process_send linux_child = true ∧
  process_sent (exec (module_reports linux_child None empty_report)
                     (initial linux_child 500 "filter")) = [watch_restarted].
Proof. repeat split; by vm_compute. Qed.

(** C4 fails as stated: with an upstream channel, a child that was never
    paired makes [destroyIPC] throw. *)
Lemma destroyIPC_never_paired_throws :
  unpaired 7 (initial linux_child 500 "filter") ∧
  destroyIPC 7 (initial linux_child 500 "filter") =
    (Throw TypeError, initial linux_child 500 "filter").
Proof. split; [done|]. by apply destroyIPC_unpaired_throws. Qed.

Lemma destroyIPC_without_passthrough_witness :
  destroyIPC 7 (initial darwin_shell 500 "filter") =
    (Normal tt, initial darwin_shell 500 "filter").
Proof. apply destroyIPC_without_passthrough_is_noop. reflexivity. Defined.

(** ** The registry *)

Lemma watchPath_covered_witness :
  watchPath darwin_shell "/a/b" false watching_a = (Normal tt, watching_a) ∧
  length (watchedPaths (exec (watchPath darwin_shell "/a/b" false) watching_a)) =
    length (watchedPaths watching_a).
Proof.
  apply watchPath_covered_is_noop. right.
  exists "/a", {| handle := 0; recursive := true |}.
  split; [by vm_compute; left | split; reflexivity].
Defined.

Lemma watchPath_prunes_witness :
  returns (watchPath darwin_shell "/a" true) watching_a_b = true ∧
  "/a" ∈ watchedPaths (exec (watchPath darwin_shell "/a" true) watching_a_b) ∧
  ("/a/b" ∉ watchedPaths (exec (watchPath darwin_shell "/a" true) watching_a_b)) ∧
  FsRemoveAllListeners 0 ∈ fs_log (exec (watchPath darwin_shell "/a" true) watching_a_b) ∧
  FsClose 0 ∈ fs_log (exec (watchPath darwin_shell "/a" true) watching_a_b).
Proof.
  apply (watchPath_recursive_prunes_descendants darwin_shell "/a" "/a/b"
           {| handle := 0; recursive := false |} watching_a_b).
  - vm_compute. left.
  - done.
  - reflexivity.
  - reflexivity.
  - reflexivity.
Defined.

Lemma filterFile_falsy_witness :
  filterFile linux_child (VStr "") (Some "o") shared_file_run = (Normal tt, shared_file_run).
Proof. apply filterFile_falsy_is_noop. reflexivity. Defined.

(** ** The debouncer *)

Lemma throttle_window_witness :
  emitted after_first = (emitted filtered_b ++ [changed_event "/a/b.js" filtered_b])%list ∧
  emitted after_second = emitted after_first ∧
  emitted after_third =
    (emitted after_second ++
     [{| at_time := now filtered_b + 50 + 150; trigger_of := "/a/b.js";
         payload := depencencyOwners filtered_b !! "/a/b.js" |}])%list.
Proof.
  apply (proj2 (throttle_window linux_child 100 "filter"
                  [FilterFile (VStr "/a/b.js") (Some "ownerX")])
           0 "b.js" "/a/b.js" 50 150).
  - reflexivity.
  - by vm_compute.
  - intros _. by vm_compute.
  - lia.
  - lia.
Defined.

Example scenario_events :
  emitted after_third =
    [{| at_time := 0; trigger_of := "/a/b.js"; payload := Some {["ownerX"]} |};
     {| at_time := 200; trigger_of := "/a/b.js"; payload := Some {["ownerX"]} |}].
Proof. by vm_compute. Qed.

Lemma notification_filtering_witness :
  emitted (exec (fs_change darwin_shell 0 "x.js") watching_a) = emitted watching_a.
Proof.
  apply (proj1 (notification_filtering darwin_shell) 500 [WatchPath "/a" true]
           0 "x.js" "/a/x.js").
  - reflexivity.
  - intros owner H. vm_compute in H. by apply elem_of_nil in H.
Defined.

(** * Beyond the claims: the registry *)

Section RegistryMore.

Variable E : env.

Lemma prune_loop_eq path l s :
  forEach l (prune_entry path) s = (Normal tt, prune_all path l s).
Proof.
  revert s. induction l as [|kv l IH]; intros s; [done|]. cbn [forEach].
  rewrite (bind_normal _ _ _ _ _ (prune_entry_eq path kv s)). apply IH.
Qed.

(** The three outcomes of [watchPath]. *)
Lemma watchPath_eq path rec s :
  watchPath E path rec s =
    if isPathWatched path s then (Normal tt, s)
    else if fs_watch_ok E path rec then (Normal tt, watched path rec s)
    else (Throw (FsError path), s).
Proof.
  destruct (isPathWatched path s) eqn:Hcov.
  - unfold watchPath, bind, get. by rewrite Hcov.
  - destruct (fs_watch_ok E path rec) eqn:Hok.
    + rewrite (watchPath_fresh E path rec s Hcov Hok). cbv zeta. unfold watched.
      fold (registered path rec s). destruct rec; [|done].
      rewrite removeWatchedChildren_unfold. apply prune_loop_eq.
    + unfold watchPath, bind, get, fs_watch. by rewrite Hcov, Hok.
Qed.

(** ** Reading the log of fs calls *)

Lemma listeners_removed_app h l1 l2 :
  listeners_removed h (l1 ++ l2) = listeners_removed h l1 || listeners_removed h l2.
Proof. unfold listeners_removed. apply existsb_app. Qed.

Lemma installed_listener_app h l1 l2 :
  installed_listener h (l1 ++ l2) =
    match installed_listener h l1 with
    | Some x => Some x
    | None => installed_listener h l2
    end.
Proof.
  induction l1 as [|c l1 IH]; [done|]. simpl.
  destruct c; try exact IH. by destruct (Nat.eqb h0 h).
Qed.

Lemma listeners_removed_true h l :
  listeners_removed h l = true ↔ FsRemoveAllListeners h ∈ l.
Proof.
  unfold listeners_removed. rewrite existsb_exists. split.
  - intros [c [Hin Hc]]. destruct c; try done. apply Nat.eqb_eq in Hc as ->.
    by apply list_elem_of_In.
  - intros Hin. exists (FsRemoveAllListeners h). split; [by apply list_elem_of_In|].
    apply Nat.eqb_refl.
Qed.

Lemma installed_listener_Some h l p r :
  installed_listener h l = Some (p, r) → FsOnChange h p r ∈ l.
Proof.
  induction l as [|c l IH]; [done|]. simpl.
  destruct c; try (intros H; right; by apply IH).
  destruct (Nat.eqb_spec h0 h) as [->|Hne].
  - intros H. simplify_eq. left.
  - intros H. right. by apply IH.
Qed.

Lemma closing_no_listener h l : installed_listener h (closing l) = None.
Proof. induction l as [|kv l IH]; [done|]. exact IH. Qed.

Lemma elem_of_closing c l :
  c ∈ closing l ↔
  ∃ kv, kv ∈ l ∧ (c = FsRemoveAllListeners (handle kv.2) ∨ c = FsClose (handle kv.2)).
Proof.
  unfold closing. rewrite list_elem_of_In, in_flat_map. split.
  - intros [kv [Hin Hc]]. exists kv. split; [by apply list_elem_of_In|].
    simpl in Hc. destruct Hc as [<-|[<-|[]]]; auto.
  - intros [kv [Hin Hc]]. exists kv. split; [by apply list_elem_of_In|].
    simpl. destruct Hc as [->| ->]; auto.
Qed.

(** A handle that the log does not mention yet has no listener and was
    not stopped. *)
Lemma fresh_handle_unused s :
  (∀ c h, c ∈ fs_log s → mentions c = Some h → (h < length (fs_log s))%nat) →
  installed_listener (length (fs_log s)) (fs_log s) = None ∧
  listeners_removed (length (fs_log s)) (fs_log s) = false.
Proof.
  intros Hb. split.
  - destruct (installed_listener _ _) as [[p r]|] eqn:Hi; [|done].
    apply installed_listener_Some in Hi. specialize (Hb _ _ Hi eq_refl). lia.
  - destruct (listeners_removed _ _) eqn:Hr; [|done].
    apply listeners_removed_true in Hr. specialize (Hb _ _ Hr eq_refl). lia.
Qed.

(** ** The registry stays well formed *)

Lemma registry_wf_initial throttle mode : registry_wf (initial E throttle mode).
Proof.
  split; simpl.
  - constructor.
  - intros c h H. by apply elem_of_nil in H.
  - intros h p r. unfold change_listener. simpl. split; [done|].
    intros H. by apply elem_of_nil in H.
Qed.

Lemma registry_wf_same s s' :
  registry s' = registry s → registry_wf s → registry_wf s'.
Proof.
  unfold registry. intros H [Hu Hb Hl]. injection H as Hw Hlog.
  split; unfold watchedPaths, change_listener in *; rewrite ?Hw, ?Hlog; done.
Qed.

Lemma registry_wf_registered path rec s :
  isPathWatched path s = false → registry_wf s → registry_wf (registered path rec s).
Proof.
  intros Hcov [Hu Hb Hl].
  assert (Hhas : path ∉ watchedPaths s).
  { intros Hin. apply map_has_spec in Hin. unfold isPathWatched in Hcov.
    by rewrite Hin in Hcov. }
  destruct (fresh_handle_unused s Hb) as [Hfi Hfr].
  split.
  - unfold watchedPaths, registered. simpl. rewrite fmap_app. simpl.
    apply NoDup_app. split; [done|]. split; [|apply NoDup_singleton].
    intros x Hx Hx'. apply list_elem_of_singleton in Hx' as ->. done.
  - unfold registered. simpl. intros c h Hin Hm. rewrite length_app. simpl.
    apply elem_of_app in Hin as [Hin|Hin].
    + specialize (Hb c h Hin Hm). lia.
    + apply elem_of_cons in Hin as [->|Hin]; [done|].
      apply list_elem_of_singleton in Hin as ->. simpl in Hm. simplify_eq. lia.
  - intros h p r. unfold change_listener, registered in *. simpl.
    rewrite listeners_removed_app, installed_listener_app. simpl.
    rewrite orb_false_r, elem_of_app, list_elem_of_singleton.
    destruct (Nat.eqb_spec (length (fs_log s)) h) as [<-|Hne].
    + rewrite Hfr, Hfi. split.
      * intros H. simplify_eq. by right.
      * intros [Hin|Heq]; [|by simplify_eq].
        apply Hl in Hin. by rewrite Hfr, Hfi in Hin.
    + rewrite <- Hl. split.
      * intros H. left. destruct (listeners_removed h (fs_log s)); [done|].
        by destruct (installed_listener h (fs_log s)).
      * intros [H|H]; [|by simplify_eq].
        destruct (listeners_removed h (fs_log s)); [done|]. by rewrite H.
Qed.

Lemma registry_wf_pruned path kv s :
  kv ∈ watchers s → registry_wf s → registry_wf (pruned path kv s).
Proof.
  intros Hkv [Hu Hb Hl]. unfold pruned. destruct (is_child_of path kv.1); [|done].
  destruct kv as [k w]. simpl in *.
  assert (Hw : change_listener (handle w) s = Some (k, recursive w)).
  { apply Hl. by destruct w. }
  assert (Hkey : ∀ w', (k, w') ∈ watchers s → w' = w).
  { intros w' Hin. apply list_elem_of_lookup in Hin as [i Hi].
    apply list_elem_of_lookup in Hkv as [j Hj].
    assert (i = j) as ->; [|congruence].
    apply (NoDup_lookup _ i j k Hu); unfold watchedPaths; rewrite list_lookup_fmap.
    - by rewrite Hi.
    - by rewrite Hj. }
  split.
  - unfold watchedPaths. simpl. by apply map_delete_unique.
  - simpl. intros c h Hin Hm. rewrite length_app. simpl.
    apply elem_of_app in Hin as [Hin|Hin].
    + specialize (Hb c h Hin Hm). lia.
    + assert (h = handle w) as ->.
      { apply elem_of_cons in Hin as [->|Hin]; [simpl in Hm; by simplify_eq|].
        apply list_elem_of_singleton in Hin as ->. simpl in Hm. by simplify_eq. }
      unfold change_listener in Hw.
      destruct (listeners_removed (handle w) (fs_log s)); [done|].
      apply installed_listener_Some in Hw. specialize (Hb _ _ Hw eq_refl). lia.
  - intros h p r. unfold change_listener in *. simpl.
    rewrite listeners_removed_app, installed_listener_app, elem_of_map_delete. simpl.
    rewrite orb_false_r.
    destruct (Nat.eqb_spec (handle w) h) as [<-|Hne].
    + rewrite orb_true_r. split; [done|]. intros [Hin Hk].
      apply Hl in Hin. rewrite Hw in Hin. by simplify_eq.
    + rewrite orb_false_r. rewrite <- Hl. split.
      * intros H. assert (Hs : (if listeners_removed h (fs_log s) then None
                                else installed_listener h (fs_log s)) = Some (p, r)).
        { destruct (listeners_removed h (fs_log s)); [done|].
          by destruct (installed_listener h (fs_log s)). }
        split; [done|]. intros ->. apply Hl, Hkey in Hs. subst w. simpl in Hne. done.
      * intros [H _]. destruct (listeners_removed h (fs_log s)); [done|]. by rewrite H.
Qed.

Lemma registry_wf_prune_all path l s :
  NoDup l.*1 → (∀ kv, kv ∈ l → kv ∈ watchers s) →
  registry_wf s → registry_wf (prune_all path l s).
Proof.
  revert s. induction l as [|kv l IH]; intros s Hnd Hin Hwf; [done|].
  simpl. apply NoDup_cons in Hnd as [Hk Hnd]. apply IH; [done| |].
  - intros kv' Hkv'. unfold pruned. destruct (is_child_of path kv.1); [|apply Hin; by right].
    simpl. apply elem_of_map_delete. split; [apply Hin; by right|].
    intros Heq. apply Hk. rewrite <- Heq. apply list_elem_of_fmap. by exists kv'.
  - apply registry_wf_pruned; [apply Hin; left | done].
Qed.

Lemma registry_wf_watched path rec s :
  isPathWatched path s = false → registry_wf s → registry_wf (watched path rec s).
Proof.
  intros Hcov Hwf. pose proof (registry_wf_registered path rec s Hcov Hwf) as H1.
  unfold watched. cbv zeta. destruct rec; [|done].
  apply registry_wf_prune_all; [apply (wf_unique _ H1) | done | done].
Qed.

Lemma registry_wf_cleared s : registry_wf s → registry_wf (cleared s).
Proof.
  intros [Hu Hb Hl]. split.
  - constructor.
  - simpl. intros c h Hin Hm. rewrite length_app.
    apply elem_of_app in Hin as [Hin|Hin]; [specialize (Hb c h Hin Hm); lia|].
    apply elem_of_closing in Hin as [[k w] [Hin Hc]]. simpl in Hc.
    assert (h = handle w) as -> by (destruct Hc as [->| ->]; simpl in Hm; by simplify_eq).
    assert (Hw : change_listener (handle w) s = Some (k, recursive w)).
    { apply Hl. by destruct w. }
    unfold change_listener in Hw. destruct (listeners_removed _ _); [done|].
    apply installed_listener_Some in Hw. specialize (Hb _ _ Hw eq_refl). lia.
  - intros h p r. unfold change_listener in *. simpl.
    rewrite listeners_removed_app, installed_listener_app, closing_no_listener.
    split; [|intros H; by apply elem_of_nil in H].
    intros H. exfalso.
    destruct (listeners_removed h (fs_log s)) eqn:Hr; [done|]. simpl in H.
    destruct (listeners_removed h (closing (watchers s))) eqn:Hc; [done|].
    assert (Hs : change_listener h s = Some (p, r)).
    { unfold change_listener. rewrite Hr. by destruct (installed_listener h (fs_log s)). }
    apply Hl in Hs.
    assert (Hin : FsRemoveAllListeners h ∈ closing (watchers s)).
    { apply elem_of_closing. eexists. split; [exact Hs|]. by left. }
    apply listeners_removed_true in Hin. congruence.
Qed.

#[global] Instance keeps_wf_preorder : PreOrder keeps_wf.
Proof.
  split.
  - intros s H. exact H.
  - intros s1 s2 s3 H12 H23 H. apply H23, H12, H.
Qed.

#[global] Instance keeps_flat_preorder : PreOrder keeps_flat.
Proof.
  split.
  - intros s H. exact H.
  - intros s1 s2 s3 H12 H23 H. apply H23, H12, H.
Qed.

Lemma watchPath_keeps_wf path rec : steps keeps_wf (watchPath E path rec).
Proof.
  intros s Hwf. rewrite watchPath_eq.
  destruct (isPathWatched path s) eqn:Hcov; [done|].
  destruct (fs_watch_ok E path rec); [|done].
  by apply registry_wf_watched.
Qed.

Lemma clear_keeps_wf : steps keeps_wf clear.
Proof. intros s Hwf. rewrite clear_eq. by apply registry_wf_cleared. Qed.

Ltac unfold_above_watchPath :=
  unfold step, fs_change, onChange, emit_changed, setTimeout_unthrottle, advance,
    child_message, process_message, run_listener, module_reports, register_reports,
    get_property, fileURLToPath_call, process_send_message, child_send,
    watchChildProcessModules, destroyIPC, setupIPC, new_closure, update_child,
    unfilterFilesOwnedBy, clearFileFilters, filterFile, new_SafeSet.

Lemma step_keeps_wf a : steps keeps_wf (step E a).
Proof.
  destruct a; try apply watchPath_keeps_wf; try apply clear_keeps_wf;
    unfold_above_watchPath; steps_structure; try apply watchPath_keeps_wf;
    apply (steps_modify keeps_wf); intros s0; unfold keeps_wf;
    by apply (registry_wf_same s0).
Qed.

Lemma registry_wf_run throttle mode acts :
  registry_wf (run E acts (initial E throttle mode)).
Proof.
  apply (run_steps E keeps_wf acts step_keeps_wf), registry_wf_initial.
Qed.

(** ** No entry below a recursive entry *)

Lemma prune_all_watchers path l s kv :
  kv ∈ watchers (prune_all path l s) ↔
  kv ∈ watchers s ∧ ¬ (is_child_of path kv.1 = true ∧ kv.1 ∈ l.*1).
Proof.
  destruct (prune_loop path l s) as (Hw & _ & _). cbv zeta in Hw.
  rewrite prune_loop_eq in Hw. apply Hw.
Qed.

Lemma isPathWatched_false path s q w :
  isPathWatched path s = false → (q, w) ∈ watchers s →
  q ≠ path ∧ (recursive w = true → StringPrototypeStartsWith path q = false).
Proof.
  intros Hcov Hin. split.
  - intros ->. assert (H : isPathWatched path s = true); [|congruence].
    apply isPathWatched_spec. left. apply list_elem_of_fmap. by exists (path, w).
  - intros Hr. destruct (StringPrototypeStartsWith path q) eqn:Hp; [|done].
    assert (H : isPathWatched path s = true); [|congruence].
    apply isPathWatched_spec. right. by exists q, w.
Qed.

Lemma watched_watchers path rec s kv :
  kv ∈ watchers (watched path rec s) ↔
  (kv = (path, {| handle := length (fs_log s); recursive := rec |}) ∨ kv ∈ watchers s) ∧
  (rec = true → is_child_of path kv.1 = false).
Proof.
  unfold watched. cbv zeta. destruct rec.
  - rewrite prune_all_watchers. unfold registered. simpl.
    rewrite elem_of_app, list_elem_of_singleton. split.
    + intros [Hin Hn]. split; [tauto|]. intros _.
      destruct (is_child_of path kv.1) eqn:Hc; [|done]. exfalso. apply Hn. split; [done|].
      rewrite fmap_app. simpl. apply elem_of_app.
      destruct Hin as [Hin| ->]; [left; apply list_elem_of_fmap; by exists kv | right; left].
    + intros [Hin Hc]. split; [tauto|]. intros [Hc' _]. rewrite Hc in Hc'; done.
  - unfold registered. simpl. rewrite elem_of_app, list_elem_of_singleton.
    split; [intros H; split; [tauto | done] | tauto].
Qed.

Lemma no_nested_watched path rec s :
  isPathWatched path s = false → no_nested s → no_nested (watched path rec s).
Proof.
  intros Hcov Hflat p w d w' Hp Hd Hr.
  apply watched_watchers in Hp as [Hp Hpc]. apply watched_watchers in Hd as [Hd Hdc].
  destruct Hp as [Hp|Hp], Hd as [Hd|Hd]; simplify_eq; simpl in *.
  - unfold is_child_of. by rewrite String.eqb_refl.
  - by apply Hdc.
  - destruct (isPathWatched_false path s p w Hcov Hp) as [Hne Hpre].
    unfold is_child_of. rewrite (Hpre Hr). apply andb_false_r.
  - by apply (Hflat p w d w').
Qed.

Lemma watchPath_keeps_flat path rec : steps keeps_flat (watchPath E path rec).
Proof.
  intros s Hflat. rewrite watchPath_eq.
  destruct (isPathWatched path s) eqn:Hcov; [done|].
  destruct (fs_watch_ok E path rec); [|done].
  by apply no_nested_watched.
Qed.

Lemma step_keeps_flat a : steps keeps_flat (step E a).
Proof.
  destruct a; try apply watchPath_keeps_flat;
    unfold_above_watchPath; unfold clear, unwatch;
    steps_structure; try apply watchPath_keeps_flat;
    apply (steps_modify keeps_flat); intros ?; unfold keeps_flat, no_nested; simpl;
    first [ done | intros _ ? ? ? ? H; by apply elem_of_nil in H ].
Qed.

End RegistryMore.

Section RegistryFacts.

Variable E : env.

(** X1.  In every state a watcher can reach, no registered path lies
    strictly below the root of a registered recursive watch. *)
Theorem no_entry_below_recursive_root throttle mode acts p w d w' :
  let s := run E acts (initial E throttle mode) in
  (p, w) ∈ watchers s → (d, w') ∈ watchers s → recursive w = true →
  d = p ∨ StringPrototypeStartsWith d p = false.
Proof.
  intros s Hp Hd Hr.
  assert (Hflat : no_nested s).
  { apply (run_steps E keeps_flat acts (step_keeps_flat E)).
    intros ? ? ? ? H. by apply elem_of_nil in H. }
  specialize (Hflat p w d w' Hp Hd Hr). unfold is_child_of in Hflat.
  apply andb_false_iff in Hflat as [Hflat|Hflat]; [left | by right].
  apply negb_false_iff, String.eqb_eq in Hflat. by subst.
Qed.

(** X2.  A call of [watchPath] that returns leaves the path covered, so
    that a second call, with either value of [recursive], changes nothing. *)
Theorem watchPath_twice path rec rec' s :
  returns (watchPath E path rec) s = true →
  let s' := exec (watchPath E path rec) s in
  isPathWatched path s' = true ∧
  watchPath E path rec' s' = (Normal tt, s').
Proof.
  intros Hret. cbv zeta.
  assert (Hcov : isPathWatched path (exec (watchPath E path rec) s) = true).
  { unfold returns, exec in *. rewrite watchPath_eq in *.
    destruct (isPathWatched path s) eqn:Hc; [done|].
    destruct (fs_watch_ok E path rec); [|done]. simpl.
    apply isPathWatched_spec. left. apply list_elem_of_fmap.
    exists (path, {| handle := length (fs_log s); recursive := rec |}).
    split; [done|]. apply watched_watchers. split; [by left|].
    intros _. unfold is_child_of. by rewrite String.eqb_refl. }
  split; [done|]. rewrite watchPath_eq. by rewrite Hcov.
Qed.

(** X3.  [watchPath] on a path that is not covered and that the fs
    primitive accepts: afterwards the registered paths are the new path and
    the former ones, except, for a recursive watch, the strict descendants
    of the new path.  A watch that is not recursive removes nothing. *)
Theorem watchedPaths_after_watchPath path rec s q :
  isPathWatched path s = false →
  fs_watch_ok E path rec = true →
  q ∈ watchedPaths (exec (watchPath E path rec) s) ↔
  q = path ∨
  (q ∈ watchedPaths s ∧
   ¬ (rec = true ∧ q ≠ path ∧ StringPrototypeStartsWith q path = true)).
Proof.
  intros Hcov Hok. unfold exec. rewrite watchPath_eq, Hcov, Hok. simpl.
  assert (Hchild : is_child_of path q = true ↔
                   q ≠ path ∧ StringPrototypeStartsWith q path = true).
  { unfold is_child_of. rewrite andb_true_iff, negb_true_iff, String.eqb_neq.
    split; intros [H1 H2]; split; congruence. }
  unfold watchedPaths. rewrite !list_elem_of_fmap. split.
  - intros [kv [-> Hin]]. apply watched_watchers in Hin as [[->|Hin] Hc]; [by left|].
    destruct (decide (kv.1 = path)) as [Heq|Hne]; [by left|]. right. split.
    + by exists kv.
    + intros [Hr Hq]. apply Hchild in Hq. rewrite (Hc Hr) in Hq. done.
  - intros [->|[[kv [-> Hin]] Hn]].
    + exists (path, {| handle := length (fs_log s); recursive := rec |}).
      split; [done|]. apply watched_watchers. split; [by left|].
      intros _. unfold is_child_of. by rewrite String.eqb_refl.
    + exists kv. split; [done|]. apply watched_watchers. split; [by right|].
      intros Hr. destruct (is_child_of path kv.1) eqn:Hc; [|done].
      exfalso. apply Hn. split; [done|]. by apply Hchild.
Qed.

(** X4.  In every state a watcher can reach, a handle delivers
    notifications exactly when its entry is in the registry, and the
    trigger is the entry's path, or, for a recursive entry, the path
    resolved with the reported file name. *)
Theorem notifications_come_from_entries throttle mode acts h fileName t :
  let s := run E acts (initial E throttle mode) in
  raw_trigger E h fileName s = Some t ↔
  ∃ p r, (p, {| handle := h; recursive := r |}) ∈ watchers s ∧
         t = if r then resolve E p fileName else p.
Proof.
  intros s. pose proof (registry_wf_run E throttle mode acts) as Hwf. fold s in Hwf.
  unfold raw_trigger. split.
  - destruct (change_listener h s) as [[p r]|] eqn:Hl; [|done].
    intros H. simplify_eq. exists p, r. split; [|done]. by apply (wf_live s Hwf).
  - intros (p & r & Hin & ->). apply (wf_live s Hwf) in Hin. by rewrite Hin.
Qed.

(** X5.  [clear()] in a state a watcher can reach: the registry, the filter
    and both maps of the owner graph are empty, every handle that was
    registered has been stopped, the throttle windows are as they were, and
    from then on no notification of any handle has any effect. *)
Theorem clear_stops_everything throttle mode acts :
  let s := run E acts (initial E throttle mode) in
  let s' := exec clear s in
  returns clear s = true ∧
  watchedPaths s' = [] ∧
  filteredFiles s' = ∅ ∧
  depencencyOwners s' = ∅ ∧
  ownerDependencies s' = ∅ ∧
  debounce s' = debounce s ∧
  (∀ p w, (p, w) ∈ watchers s →
     FsRemoveAllListeners (handle w) ∈ fs_log s' ∧ FsClose (handle w) ∈ fs_log s') ∧
  (∀ h fileName, fs_change E h fileName s' = (Normal tt, s')).
Proof.
  intros s s'. subst s'. unfold exec, returns. rewrite clear_eq. simpl.
  repeat split; try done.
  - apply elem_of_app. right. apply elem_of_closing. exists (p, w). split; [done | by left].
  - apply elem_of_app. right. apply elem_of_closing. exists (p, w). split; [done | by right].
  - intros h fileName. rewrite fs_change_eq.
    pose proof (registry_wf_cleared s (registry_wf_run E throttle mode acts)) as Hwf.
    unfold raw_trigger. destruct (change_listener h (cleared s)) as [[p r]|] eqn:Hl; [|done].
    apply (wf_live _ Hwf) in Hl. by apply elem_of_nil in Hl.
Qed.

End RegistryFacts.

(** * Beyond the claims: the debouncer *)

Section DebouncerFacts.

Variable E : env.

Lemma timers_inv_notified trigger s : timers_inv s → timers_inv (notified trigger s).
Proof.
  intros [Hth Hdue]. split; simpl.
  - intros t Ht. apply elem_of_union in Ht as [Ht|Ht].
    + apply elem_of_singleton in Ht as ->. exists (now s + throttle s).
      apply elem_of_app. right. left.
    + destruct (Hth t Ht) as [due Hin]. exists due. apply elem_of_app. by left.
  - intros tm Hin. apply elem_of_app in Hin as [Hin|Hin]; [by apply Hdue|].
    apply list_elem_of_singleton in Hin as ->. simpl. lia.
Qed.

Lemma timers_inv_ticked dt s : timers_inv s → timers_inv (ticked dt s).
Proof.
  intros [Hth Hdue]. split; simpl.
  - intros t Ht. apply elem_of_unthrottle in Ht as [Ht Hn].
    destruct (Hth t Ht) as [due Hin]. exists due.
    apply list_elem_of_filter. split; [|done].
    destruct (is_due (now s + dt) (due, t)) eqn:Hd; [|done].
    exfalso. apply Hn. apply list_elem_of_fmap. exists (due, t). split; [done|].
    apply list_elem_of_filter. split; [by rewrite Hd | done].
  - intros tm Hin. apply list_elem_of_filter in Hin as [_ Hin].
    specialize (Hdue tm Hin). lia.
Qed.

Lemma timers_inv_same s s' :
  debounce s' = debounce s → config s' = config s → timers_inv s → timers_inv s'.
Proof.
  unfold debounce, config. intros Hd Hc [Hth Hdue].
  injection Hd as H1 H2 H3 H4. injection Hc as H5 _ _.
  split; rewrite ?H1, ?H2, ?H3, ?H4, ?H5; done.
Qed.

Lemma timers_inv_step a s : timers_inv s → timers_inv (exec (step E a) s).
Proof.
  intros Hinv.
  destruct a;
    try (apply (timers_inv_same s); [| apply (step_config _ _ s) | done];
         match goal with |- context [step E ?a] => by apply (step_debounce E a) end).
  - unfold exec. simpl. rewrite fs_change_eq.
    destruct (raw_trigger E h fileName s) as [t|]; [|done].
    rewrite onChange_eq. simpl. destruct (discards t s); [done|].
    by apply timers_inv_notified.
  - unfold exec. simpl. rewrite advance_eq. by apply timers_inv_ticked.
Qed.

Lemma timers_inv_run throttle mode acts :
  timers_inv (run E acts (initial E throttle mode)).
Proof.
  apply run_invariant; [apply timers_inv_step|].
  split; simpl; [set_solver | intros tm H; by apply elem_of_nil in H].
Qed.

(** X6.  Every throttle window closes: in a state a watcher can reach,
    once the clock has moved by the throttle delay or more, no trigger is
    throttled and no timeout is pending. *)
Theorem throttle_windows_close throttle mode acts dt :
  (throttle ≤ dt)%nat →
  let s' := exec (advance dt) (run E acts (initial E throttle mode)) in
  throttling s' = ∅ ∧ timers s' = [].
Proof.
  intros Hdt. cbv zeta. set (s := run E acts (initial E throttle mode)).
  destruct (timers_inv_run throttle mode acts) as [Hth Hdue]. fold s in Hth, Hdue.
  pose proof (run_config E acts (initial E throttle mode)) as Hc.
  fold s in Hc. unfold config in Hc. simpl in Hc. injection Hc as Hthr _ _.
  unfold exec. rewrite advance_eq. simpl.
  assert (Hall : ∀ tm, tm ∈ timers s → is_due (now s + dt) tm = true).
  { intros tm Hin. specialize (Hdue tm Hin). unfold is_due. apply Nat.leb_le. lia. }
  split.
  - apply set_eq. intros t. split; [|set_solver]. intros Ht.
    apply elem_of_unthrottle in Ht as [Ht Hn]. destruct (Hth t Ht) as [due Hin].
    exfalso. apply Hn. apply list_elem_of_fmap. exists (due, t). split; [done|].
    apply list_elem_of_filter. split; [|done]. by rewrite (Hall _ Hin).
  - destruct (filter _ (timers s)) as [|tm l] eqn:Hf; [done|].
    assert (Hin : tm ∈ filter (λ tm, negb (is_due (now s + dt) tm)) (timers s)).
    { rewrite Hf. left. }
    apply list_elem_of_filter in Hin as [Hd Hin]. by rewrite (Hall _ Hin) in Hd.
Qed.

(** ** What was filtered since *)

#[global] Instance filter_since_preorder : PreOrder filter_since.
Proof.
  split.
  - intros s. exists []. split; [by rewrite app_nil_r | auto].
  - intros s1 s2 s3 (l1 & L1 & H1) (l2 & L2 & H2). exists (l1 ++ l2)%list. split.
    + by rewrite L2, L1, app_assoc.
    + intros x Hx. rewrite fmap_app, elem_of_app.
      destruct (H2 x Hx) as [H|H]; [|tauto]. destruct (H1 x H); tauto.
Qed.

Lemma filterFile_filter_since file owner : steps filter_since (filterFile E file owner).
Proof.
  unfold filterFile. destruct (negb (truthy file)); [apply (steps_ret filter_since)|].
  destruct file as [| | | |f| |]; try apply (steps_throw filter_since).
  intros s0. unfold bind at 1, modify at 1.
  set (s1 := set_filter_log _ s0).
  match goal with |- filter_since _ (?m s1).2 => assert (Hm : steps (adds_at_most f) m) end.
  { steps_structure;
      try (apply (steps_weaken (same filters)); [apply same_filters_adds_at_most|];
           first [ apply watchPath_same; done | solve [unfold new_SafeSet; frame] ]).
    all: apply (steps_modify (adds_at_most f)); intros ?; split; simpl; [done | set_solver]. }
  destruct (Hm s1) as [Hlog Hff]. exists [(f, owner)]. split; [by rewrite Hlog|].
  intros x Hx. apply Hff in Hx. apply elem_of_union in Hx as [Hx|Hx]; [|by left].
  right. apply elem_of_singleton in Hx as ->. simpl. left.
Qed.

Lemma step_filter_since a : steps filter_since (step E a).
Proof.
  destruct a; try apply filterFile_filter_since;
    unfold step, fs_change, onChange, emit_changed, setTimeout_unthrottle, advance,
      child_message, process_message, run_listener, module_reports, register_reports,
      get_property, fileURLToPath_call, process_send_message, child_send,
      watchChildProcessModules, destroyIPC, setupIPC, new_closure, update_child,
      unfilterFilesOwnedBy, clearFileFilters, clear,
      watchPath, fs_watch, removeWatchedChildren, unwatch;
    steps_structure; try apply filterFile_filter_since;
    apply (steps_modify filter_since); intros ?; exists []; simpl;
    (split; [by rewrite app_nil_r | set_solver]).
Qed.

(** X7.  [clearFileFilters()] on a watcher in filter mode: whatever happens
    afterwards, a notification emits only if its trigger was passed to
    [filterFile] after the call; the files filtered before it stay
    silent. *)
Theorem silent_until_filtered_again s acts h fileName t :
  mode s = "filter" →
  let s' := run E acts (exec clearFileFilters s) in
  raw_trigger E h fileName s' = Some t →
  (∀ owner, (t, owner) ∉ drop (length (filter_log s)) (filter_log s')) →
  emitted (exec (fs_change E h fileName) s') = emitted s'.
Proof.
  intros Hmode s' Ht Hnever. unfold exec at 1. rewrite fs_change_eq, Ht, onChange_eq.
  assert (Hd : discards t s' = true); [|by rewrite Hd].
  unfold discards. apply orb_true_iff. right.
  pose proof (run_config E acts (exec clearFileFilters s)) as Hc.
  fold s' in Hc. unfold config in Hc. simpl in Hc. injection Hc as _ Hm _.
  rewrite Hm, Hmode. simpl. apply negb_true_iff, bool_decide_eq_false. intros Hin.
  destruct (run_steps E filter_since acts step_filter_since (exec clearFileFilters s))
    as (l & Hlog & Hff).
  fold s' in Hlog, Hff. simpl in Hlog.
  destruct (Hff t Hin) as [H|H]; [set_solver|].
  apply list_elem_of_fmap in H as [[t' owner] [Heq H]]. simpl in Heq. subst t'.
  apply (Hnever owner). by rewrite Hlog, drop_app_length.
Qed.

(** X8.  Triggers are throttled apart: a notification for one trigger
    changes neither whether a notification for another trigger is
    discarded nor the event that it would emit. *)
Theorem triggers_do_not_interfere h fileName t t' s :
  raw_trigger E h fileName s = Some t →
  t' ≠ t →
  let s' := exec (fs_change E h fileName) s in
  discards t' s' = discards t' s ∧ changed_event t' s' = changed_event t' s.
Proof.
  intros Ht Hne. cbv zeta. unfold exec. rewrite fs_change_eq, Ht, onChange_eq. simpl.
  destruct (discards t s); [done|]. split; [|done].
  unfold discards. simpl. f_equal. apply bool_decide_ext. set_solver.
Qed.

End DebouncerFacts.

(** * Beyond the claims: the dependency graph *)

Section GraphFacts.

Variable E : env.

Ltac run_bind :=
  erewrite bind_normal by (cbv [new_SafeSet bind get modify ret]; reflexivity).

Lemma watch_for_same {B} (g : state → B) f :
  (∀ x s, g (set_fs_log x s) = g s) →
  (∀ x s, g (set_watchers x s) = g s) →
  steps (same g) (watch_for E f).
Proof.
  intros H1 H2. unfold watch_for.
  destruct (supportsRecursiveWatching E); by apply watchPath_same.
Qed.

Lemma FileToOwners_linked f o s g :
  FileToOwners (linked f o s) g =
    if bool_decide (g = f) then {[o]} ∪ FileToOwners s f else FileToOwners s g.
Proof.
  unfold FileToOwners, linked. simpl. case_bool_decide as Hg.
  - subst. by rewrite lookup_insert_eq.
  - by rewrite lookup_insert_ne.
Qed.

(** X9.  A call [filterFile(f, owner)] with a non-empty [f] that returns:
    [f] is added to the filter and nothing leaves it; with a truthy owner
    the owner joins the owners of [f], those already there stay, and the
    owners of every other file are as they were; the throttle windows and
    the relay are untouched. *)
Theorem filterFile_adds f owner s :
  f ≠ "" →
  returns (filterFile E (VStr f) owner) s = true →
  let s' := exec (filterFile E (VStr f) owner) s in
  filteredFiles s' = {[f]} ∪ filteredFiles s ∧
  (∀ g, FileToOwners s' g =
        if bool_decide (g = f) && truthy_owner owner
        then {[default "" owner]} ∪ FileToOwners s f
        else FileToOwners s g) ∧
  debounce s' = debounce s ∧ relay s' = relay s.
Proof.
  intros Hf. cbv zeta. unfold returns, exec. rewrite (filterFile_eq E f owner s Hf).
  set (s1 := set_filter_log _ s).
  pose proof (watch_for_same (λ s, (filteredFiles s, depencencyOwners s, debounce s, relay s))
                f ltac:(done) ltac:(done) s1) as Hsame.
  unfold same in Hsame.
  destruct (watch_for E f s1) as [[[]|e] s2]; [|done]. intros _. simpl in *.
  injection Hsame as Hff Hdo Hdb Hrl.
  destruct (truthy_owner owner) eqn:Ho; simpl.
  - split; [by rewrite Hff|]. split; [|unfold debounce, relay; simpl; split; congruence].
    intros g. rewrite FileToOwners_linked, andb_true_r.
    unfold FileToOwners. simpl. by rewrite Hdo.
  - split; [by rewrite Hff|]. split; [|unfold debounce, relay; simpl; split; congruence].
    intros g. rewrite andb_false_r. unfold FileToOwners. simpl. by rewrite Hdo.
Qed.

(** ** unfilterFilesOwnedBy, exactly *)

Lemma OwnerToFiles_unfilter_owner o1 s o :
  OwnerToFiles (unfilter_owner o1 s) o =
    if bool_decide (o = o1) then ∅ else OwnerToFiles s o.
Proof.
  destruct (unfilter_owner_spec o1 s) as (_ & _ & Hod & Hh). cbv zeta in *.
  unfold OwnerToFiles, deref. rewrite Hod, Hh. case_bool_decide as Ho.
  - subst. by rewrite lookup_delete_eq.
  - by rewrite lookup_delete_ne.
Qed.

Lemma unfilter_fold_exact owners s :
  let s' := fold_left (λ s o, unfilter_owner o s) owners s in
  (∀ x, x ∈ filteredFiles s' ↔ x ∈ filteredFiles s ∧ ¬ unfiltered_by owners s x) ∧
  (∀ x, unfiltered_by owners s x → depencencyOwners s' !! x = None) ∧
  (∀ x, ¬ unfiltered_by owners s x → depencencyOwners s' !! x = depencencyOwners s !! x).
Proof.
  revert s. induction owners as [|o1 owners IH]; intros s; simpl.
  - unfold unfiltered_by. split; [|split].
    + intros x. split; [intros H; split; [done|] | tauto].
      intros [H0|(o & H0 & _)]; by apply elem_of_nil in H0.
    + intros x [H0|(o & H0 & _)]; by apply elem_of_nil in H0.
    + done.
  - destruct (unfilter_owner_spec o1 s) as (Hff1 & Hdo1 & _ & _). cbv zeta in *.
    destruct (IH (unfilter_owner o1 s)) as (Hff & Hgone & Hkept).
    set (s1 := unfilter_owner o1 s) in *.
    assert (Hiff : ∀ x, unfiltered_by (o1 :: owners) s x ↔
                        (x ∈ OwnerToFiles s o1 ∨ x = o1) ∨ unfiltered_by owners s1 x).
    { intros x. unfold unfiltered_by. split.
      - intros [Hx|(o & Ho & Hx)].
        + apply elem_of_cons in Hx as [->|Hx]; [left; by right | right; by left].
        + apply elem_of_cons in Ho as [->|Ho]; [left; by left|].
          destruct (decide (o = o1)) as [->|Hne]; [left; by left|].
          right. right. exists o. split; [done|]. subst s1.
          rewrite OwnerToFiles_unfilter_owner, bool_decide_eq_false_2; done.
      - intros [[Hx| ->]|[Hx|(o & Ho & Hx)]].
        + right. exists o1. split; [left | done].
        + left. left.
        + left. by right.
        + subst s1. rewrite OwnerToFiles_unfilter_owner in Hx.
          case_bool_decide; [set_solver|]. right. exists o. split; [by right | done]. }
    split; [|split].
    + intros x. rewrite Hff, Hff1, Hiff. tauto.
    + intros x Hx. apply Hiff in Hx as [Hx|Hx]; [|by apply Hgone].
      destruct (unfilter_fold owners s1) as (_ & Hmono & _). apply Hmono.
      rewrite Hdo1. by rewrite bool_decide_eq_true_2.
    + intros x Hx. rewrite Hiff in Hx. rewrite Hkept by tauto.
      rewrite Hdo1. rewrite bool_decide_eq_false_2; [done | tauto].
Qed.

(** X10.  [unfilterFilesOwnedBy(owners)] never throws and removes exactly
    this from the filter: the ids in [owners] and the files in the sets of
    the listed owners.  Those lose all their owners, every other file keeps
    its owners and its place in the filter; the listed owners lose their
    sets; no watch is stopped, and the throttle windows and the relay are
    untouched. *)
Theorem unfilterFilesOwnedBy_exactly owners s x :
  let s' := exec (unfilterFilesOwnedBy owners) s in
  returns (unfilterFilesOwnedBy owners) s = true ∧
  (x ∈ filteredFiles s' ↔ x ∈ filteredFiles s ∧ ¬ unfiltered_by owners s x) ∧
  (unfiltered_by owners s x → FileToOwners s' x = ∅) ∧
  (¬ unfiltered_by owners s x → FileToOwners s' x = FileToOwners s x) ∧
  OwnerToFiles s' x = (if bool_decide (x ∈ owners) then ∅ else OwnerToFiles s x) ∧
  registry s' = registry s ∧ debounce s' = debounce s ∧ relay s' = relay s.
Proof.
  cbv zeta.
  assert (Hframe : steps (same (λ s, (registry s, debounce s, relay s)))
                     (unfilterFilesOwnedBy owners)).
  { unfold unfilterFilesOwnedBy. frame. }
  specialize (Hframe s). unfold same in Hframe. injection Hframe as Hr Hd Hl.
  unfold exec, returns in *. rewrite unfilterFilesOwnedBy_eq in *. simpl in *.
  destruct (unfilter_fold_exact owners s) as (Hff & Hgone & Hkept).
  destruct (unfilter_fold owners s) as (_ & _ & Hod & Hh & _). cbv zeta in *.
  split; [done|]. split; [apply Hff|]. split; [|split; [|split]].
  - intros Hx. unfold FileToOwners. by rewrite (Hgone x Hx).
  - intros Hx. unfold FileToOwners. by rewrite (Hkept x Hx).
  - unfold OwnerToFiles, deref. rewrite Hod, Hh. by case_bool_decide.
  - unfold registry, debounce, relay. repeat split; congruence.
Qed.

(** X11.  On a platform without recursive watching, in a state a watcher in
    filter mode can reach: [filterFile(f, o)] on a file that is not covered
    yet opens a watch on [f], and a change reported by that watch, when [f]
    is not throttled, emits one [changed] event whose owners include [o]. *)
Theorem filtered_file_change_is_reported throttle acts f o fileName :
  let s := run E acts (initial E throttle "filter") in
  supportsRecursiveWatching E = false →
  f ≠ "" → o ≠ "" →
  isPathWatched f s = false →
  fs_watch_ok E f false = true →
  f ∉ throttling s →
  let s' := exec (filterFile E (VStr f) (Some o)) s in
  let h := length (fs_log s) in
  raw_trigger E h fileName s' = Some f ∧
  ∃ owners, o ∈ owners ∧
    emitted (exec (fs_change E h fileName) s') =
      (emitted s ++ [{| at_time := now s; trigger_of := f; payload := Some owners |}])%list.
Proof.
  intros s Hplat Hf Ho Hcov Hok Hfree. cbv zeta.
  pose proof (registry_wf_run E throttle "filter" acts) as Hwf. fold s in Hwf.
  pose proof (run_config E acts (initial E throttle "filter")) as Hc.
  fold s in Hc. unfold config in Hc. simpl in Hc. injection Hc as _ Hmode _.
  set (s1 := set_filter_log (filter_log s ++ [(f, Some o)])%list s).
  set (s' := linked f o (set_filteredFiles ({[f]} ∪ filteredFiles s) (registered f false s1))).
  assert (Hs' : exec (filterFile E (VStr f) (Some o)) s = s').
  { unfold exec. rewrite (filterFile_eq E f (Some o) s Hf).
    unfold watch_for. rewrite Hplat, watchPath_eq. fold s1.
    assert (Hcov1 : isPathWatched f s1 = false) by exact Hcov.
    rewrite Hcov1, Hok. simpl. apply String.eqb_neq in Ho. by rewrite Ho. }
  rewrite Hs'.
  destruct (fresh_handle_unused s (wf_bounded s Hwf)) as [Hfi Hfr].
  assert (Ht : raw_trigger E (length (fs_log s)) fileName s' = Some f).
  { unfold raw_trigger, change_listener. subst s' s1. simpl.
    rewrite listeners_removed_app, installed_listener_app, Hfr, Hfi. simpl.
    by rewrite Nat.eqb_refl. }
  split; [exact Ht|].
  exists ({[o]} ∪ default ∅ (depencencyOwners s !! f)). split; [set_solver|].
  unfold exec. rewrite fs_change_eq, Ht, onChange_eq.
  assert (Hd : discards f s' = false).
  { unfold discards. subst s' s1. simpl. rewrite Hmode. simpl.
    rewrite bool_decide_eq_false_2 by done.
    rewrite bool_decide_eq_true_2 by set_solver. done. }
  rewrite Hd. subst s' s1. simpl. unfold changed_event. simpl.
  by rewrite lookup_insert_eq.
Qed.

End GraphFacts.

(** * Beyond the claims: the relay *)

Section RelayFacts.

Variable E : env.

Ltac run_bind :=
  erewrite bind_normal by (cbv [new_closure update_child bind get modify ret]; reflexivity).

Lemma setupIPC_eq child s : setupIPC child s = (Normal tt, paired child s).
Proof. unfold setupIPC. do 4 run_bind. reflexivity. Qed.

Lemma watchChildProcessModules_eq child key s :
  watchChildProcessModules child key s =
    (Normal tt,
     let s1 := if wantsPassthroughIPC s then paired child s else s in
     if String.eqb (mode s) "filter" then listening child key s1 else s1).
Proof.
  unfold watchChildProcessModules. run_bind.
  destruct (wantsPassthroughIPC s); simpl.
  - erewrite bind_normal by apply setupIPC_eq.
    destruct (String.eqb (mode s) "filter"); simpl; [|done]. run_bind. reflexivity.
  - run_bind. destruct (String.eqb (mode s) "filter"); simpl; [|done]. run_bind. reflexivity.
Qed.

Lemma destroyIPC_eq child m s :
  wantsPassthroughIPC s = true →
  _ipcMessages (get_child child s) = Some m →
  destroyIPC child s = (Normal tt, unpaired_again child m s).
Proof.
  intros Hw Hm. unfold destroyIPC. run_bind. rewrite Hw, Hm. simpl. run_bind. reflexivity.
Qed.

Lemma get_child_on_child child f s c :
  get_child c (on_child child f s) =
    if bool_decide (c = child) then f (get_child child s) else get_child c s.
Proof.
  unfold get_child, on_child. simpl. case_bool_decide as Hc.
  - subst. by rewrite lookup_insert_eq.
  - by rewrite lookup_insert_ne.
Qed.

Lemma removeListener_last l ls : removeListener l (ls ++ [l]) = ls.
Proof.
  unfold removeListener. rewrite rev_app_distr. simpl.
  by rewrite Nat.eqb_refl, rev_involutive.
Qed.

Lemma removeListener_before_last l l' ls :
  listener_id l ≠ listener_id l' →
  removeListener l ((ls ++ [l]) ++ [l']) = (ls ++ [l'])%list.
Proof.
  intros Hne. unfold removeListener. rewrite !rev_app_distr. simpl.
  apply Nat.eqb_neq in Hne. rewrite Hne, Nat.eqb_refl. simpl.
  by rewrite rev_involutive.
Qed.

Lemma get_child_paired child s c :
  get_child c (paired child s) =
    if bool_decide (c = child)
    then {| _ipcMessages :=
              Some {| parentToChild := ParentToChild (next_closure s) child;
                      childToParent := ChildToParent (S (next_closure s)) |};
            child_listeners :=
              (child_listeners (get_child child s) ++ [ChildToParent (S (next_closure s))])%list;
            child_sent := child_sent (get_child child s) |}
    else get_child c s.
Proof.
  unfold paired. cbv zeta. rewrite get_child_on_child.
  case_bool_decide as Hc.
  - subst. change (get_child child (set_process_listeners ?x ?s)) with (get_child child s).
    rewrite get_child_on_child, bool_decide_eq_true_2 by done. reflexivity.
  - change (get_child c (set_process_listeners ?x ?s)) with (get_child c s).
    by rewrite get_child_on_child, bool_decide_eq_false_2.
Qed.

Lemma get_child_listening child key s c :
  get_child c (listening child key s) =
    if bool_decide (c = child)
    then {| _ipcMessages := _ipcMessages (get_child child s);
            child_listeners :=
              (child_listeners (get_child child s) ++ [ModuleReports (next_closure s) key])%list;
            child_sent := child_sent (get_child child s) |}
    else get_child c s.
Proof.
  unfold listening. rewrite get_child_on_child. by case_bool_decide.
Qed.

Lemma get_child_unpaired_again child m s c :
  get_child c (unpaired_again child m s) =
    if bool_decide (c = child)
    then {| _ipcMessages := _ipcMessages (get_child child s);
            child_listeners := removeListener (childToParent m) (child_listeners (get_child child s));
            child_sent := child_sent (get_child child s) |}
    else get_child c s.
Proof.
  unfold unpaired_again. rewrite get_child_on_child. by case_bool_decide.
Qed.

(** X12.  With an upstream channel, [watchChildProcessModules(child, key)]
    followed by [destroyIPC(child)]: both return; the first adds one
    forwarding listener to [process] and one to the child (and, in filter
    mode, the handler of module reports after it); the second removes the
    two forwarding listeners again and nothing else, so the listeners of
    [process] and of every other child are as before and the child keeps
    only the handler. *)
Theorem pairing_round_trip child key s :
  wantsPassthroughIPC s = true →
  let s1 := exec (watchChildProcessModules child key) s in
  let s2 := exec (destroyIPC child) s1 in
  let n := next_closure s in
  let handler := if String.eqb (mode s) "filter" then [ModuleReports (S (S n)) key] else [] in
  returns (watchChildProcessModules child key) s = true ∧
  returns (destroyIPC child) s1 = true ∧
  process_listeners s1 = (process_listeners s ++ [ParentToChild n child])%list ∧
  child_listeners (get_child child s1) =
    (child_listeners (get_child child s) ++ ChildToParent (S n) :: handler)%list ∧
  process_listeners s2 = process_listeners s ∧
  child_listeners (get_child child s2) =
    (child_listeners (get_child child s) ++ handler)%list ∧
  (∀ c, c ≠ child → get_child c s2 = get_child c s) ∧
  process_sent s2 = process_sent s ∧
  child_sent (get_child child s2) = child_sent (get_child child s).
Proof.
  intros Hw. cbv zeta. unfold exec, returns.
  rewrite watchChildProcessModules_eq, Hw. cbv zeta. simpl.
  set (n := next_closure s).
  set (m := {| parentToChild := ParentToChild n child; childToParent := ChildToParent (S n) |}).
  destruct (String.eqb (mode s) "filter").
  - assert (Hm : _ipcMessages (get_child child (listening child key (paired child s))) = Some m).
    { rewrite get_child_listening, get_child_paired, !bool_decide_eq_true_2 by done. done. }
    rewrite (destroyIPC_eq child m (listening child key (paired child s)) Hw Hm). simpl.
    rewrite get_child_unpaired_again, get_child_listening, get_child_paired,
      !bool_decide_eq_true_2 by done. simpl.
    split; [done|]. split; [done|]. split; [done|]. split.
    { by rewrite <- app_assoc. }
    split; [apply removeListener_last|]. split.
    { apply (removeListener_before_last (ChildToParent (S n))). simpl. lia. }
    split; [|by split].
    intros c Hc. rewrite get_child_unpaired_again, bool_decide_eq_false_2 by done.
    rewrite get_child_listening, bool_decide_eq_false_2 by done.
    by rewrite get_child_paired, bool_decide_eq_false_2.
  - assert (Hm : _ipcMessages (get_child child (paired child s)) = Some m).
    { rewrite get_child_paired, !bool_decide_eq_true_2 by done. done. }
    rewrite (destroyIPC_eq child m (paired child s) Hw Hm). simpl.
    rewrite get_child_unpaired_again, get_child_paired, !bool_decide_eq_true_2 by done. simpl.
    split; [done|]. split; [done|]. split; [done|]. split; [done|].
    split; [apply removeListener_last|]. split.
    { rewrite app_nil_r. apply removeListener_last. }
    split; [|by split].
    intros c Hc. rewrite get_child_unpaired_again, bool_decide_eq_false_2 by done.
    by rewrite get_child_paired, bool_decide_eq_false_2.
Qed.

Lemma module_reports_sent key message s :
  process_sent (module_reports E key message s).2 = process_sent s ∨
  process_sent (module_reports E key message s).2 = (process_sent s ++ [watch_restarted])%list.
Proof.
  unfold module_reports, try_catch, bind.
  pose proof (register_reports_same E process_sent key message
                ltac:(done) ltac:(done) ltac:(done) ltac:(done)
                ltac:(done) ltac:(done) ltac:(done) s) as Hsame.
  unfold same in Hsame.
  destruct (register_reports E key message s) as [[b|e] s1]; simpl in *; [|by left].
  unfold when, process_send_message.
  destruct (b && process_send E) eqn:Hb; simpl; [|by left].
  apply andb_true_iff in Hb as [_ ->]. simpl. right. by rewrite Hsame.
Qed.

(** X13.  Forwarding, on a watcher with an upstream channel, for a child
    and a [process] that have no listeners yet: after
    [watchChildProcessModules(child, key)], a message from the parent is
    passed to [child.send], and a message from the child is passed to
    [process.send], followed by nothing else or, in filter mode only, by
    one ["watch:restarted"]. *)
Theorem messages_are_forwarded child key message s :
  wantsPassthroughIPC s = true →
  process_send E = true →
  process_listeners s = [] →
  child_listeners (get_child child s) = [] →
  let s1 := exec (watchChildProcessModules child key) s in
  (returns (process_message E message) s1 = true ∧
   child_sent (get_child child (exec (process_message E message) s1)) =
     (child_sent (get_child child s) ++ [message])%list ∧
   process_sent (exec (process_message E message) s1) = process_sent s) ∧
  (returns (child_message E child message) s1 = true ∧
   ∃ tail, process_sent (exec (child_message E child message) s1) =
             (process_sent s ++ message :: tail)%list ∧
           (tail = [] ∨ (mode s = "filter" ∧ tail = [watch_restarted]))).
Proof.
  intros Hw Hsend Hpl Hcl. cbv zeta.
  set (n := next_closure s).
  set (s1 := exec (watchChildProcessModules child key) s).
  assert (Hs1eq : s1 = if String.eqb (mode s) "filter"
                       then listening child key (paired child s) else paired child s).
  { subst s1. unfold exec. by rewrite watchChildProcessModules_eq, Hw. }
  clearbody s1. subst s1. set (s1 := if String.eqb (mode s) "filter" then _ else _).
  unfold returns.
  assert (Hp1 : process_listeners s1 = [ParentToChild n child]).
  { subst s1. destruct (String.eqb (mode s) "filter"); simpl; by rewrite Hpl. }
  assert (Hc1 : child_listeners (get_child child s1) =
                ChildToParent (S n) ::
                (if String.eqb (mode s) "filter" then [ModuleReports (S (S n)) key] else [])).
  { subst s1. destruct (String.eqb (mode s) "filter").
    - rewrite get_child_listening, get_child_paired, !bool_decide_eq_true_2 by done.
      simpl. by rewrite Hcl.
    - rewrite get_child_paired, bool_decide_eq_true_2 by done. simpl. by rewrite Hcl. }
  assert (Hs1 : process_sent s1 = process_sent s ∧
                child_sent (get_child child s1) = child_sent (get_child child s)).
  { subst s1. destruct (String.eqb (mode s) "filter").
    - rewrite get_child_listening, get_child_paired, !bool_decide_eq_true_2 by done. done.
    - rewrite get_child_paired, bool_decide_eq_true_2 by done. done. }
  destruct Hs1 as [Hps Hcs]. split.
  - unfold exec, process_message. run_bind. rewrite Hp1. simpl.
    fold (on_child child (λ c, {| _ipcMessages := _ipcMessages c;
                                  child_listeners := child_listeners c;
                                  child_sent := child_sent c ++ [message] |}) s1).
    rewrite get_child_on_child, bool_decide_eq_true_2 by done. simpl.
    by rewrite Hcs, Hps.
  - unfold exec, child_message. run_bind. rewrite Hc1. cbn [forEach run_listener].
    unfold process_send_message. rewrite Hsend. run_bind.
    destruct (String.eqb_spec (mode s) "filter") as [Hmode|Hmode]; cbn [forEach].
    + set (s2 := set_process_sent _ s1).
      pose proof (module_reports_returns E key message s2) as Hret.
      pose proof (module_reports_sent key message s2) as Hsent.
      destruct (module_reports E key message s2) as [c s3] eqn:Hmr. simpl in *. subst c.
      rewrite (bind_normal _ _ _ _ _ Hmr). simpl. split; [done|].
      destruct Hsent as [Hsent|Hsent]; rewrite Hsent, ?Hps.
      * exists []. split; [done | by left].
      * exists [watch_restarted]. split; [by rewrite <- app_assoc | by right].
    + simpl. split; [done|]. exists []. split; [by rewrite ?Hps | by left].
Qed.

End RelayFacts.

(** * Beyond the claims: module reports *)

Section ReportFacts.

Variable E : env.

Ltac run_bind :=
  erewrite bind_normal by (cbv [get_property bind get modify ret]; reflexivity).

#[global] Instance grows_preorder : PreOrder grows.
Proof.
  split.
  - intros s. split; [done | intros g; done].
  - intros s1 s2 s3 [F12 O12] [F23 O23]. split; [set_solver|].
    intros g. specialize (O12 g). specialize (O23 g). set_solver.
Qed.







End ReportFacts.

(** * Beyond the claims: scenarios *)

Lemma no_entry_below_recursive_root_witness :
  "/b/c" = "/a" ∨ StringPrototypeStartsWith "/b/c" "/a" = false.
Proof.
  apply (no_entry_below_recursive_root darwin_shell 500 "filter" two_roots
           "/a" {| handle := 0; recursive := true |}
           "/b/c" {| handle := 2; recursive := false |}).
  - vm_compute. left.
  - vm_compute. right. left.
  - reflexivity.
Defined.

Lemma watchPath_twice_witness :
  isPathWatched "/a" (exec (watchPath darwin_shell "/a" true) watching_a_b) = true ∧
  watchPath darwin_shell "/a" false (exec (watchPath darwin_shell "/a" true) watching_a_b) =
    (Normal tt, exec (watchPath darwin_shell "/a" true) watching_a_b).
Proof. apply watchPath_twice. reflexivity. Defined.

Lemma watchedPaths_after_watchPath_witness :
  "/a/b" ∈ watchedPaths (exec (watchPath darwin_shell "/a" false) watching_a_b) ↔
  "/a/b" = "/a" ∨
  ("/a/b" ∈ watchedPaths watching_a_b ∧
   ¬ (false = true ∧ "/a/b" ≠ "/a" ∧ StringPrototypeStartsWith "/a/b" "/a" = true)).
Proof. apply watchedPaths_after_watchPath; reflexivity. Defined.

Lemma throttle_windows_close_witness :
  throttling (exec (advance 100) (run linux_child one_change (initial linux_child 100 "filter")))
    = ∅ ∧
  timers (exec (advance 100) (run linux_child one_change (initial linux_child 100 "filter")))
    = [].
Proof. apply (throttle_windows_close linux_child 100 "filter" one_change 100). lia. Defined.

Lemma silent_until_filtered_again_witness :
  emitted (exec (fs_change linux_child 0 "b.js")
             (run linux_child [Advance 500] (exec clearFileFilters filtered_b))) =
  emitted (run linux_child [Advance 500] (exec clearFileFilters filtered_b)).
Proof.
  apply (silent_until_filtered_again linux_child filtered_b [Advance 500] 0 "b.js" "/a/b.js").
  - reflexivity.
  - reflexivity.
  - intros owner H. vm_compute in H. by apply elem_of_nil in H.
Defined.

Lemma triggers_do_not_interfere_witness :
  discards "/a/y.js" (exec (fs_change linux_child 0 "b.js") filtered_b) =
    discards "/a/y.js" filtered_b ∧
  changed_event "/a/y.js" (exec (fs_change linux_child 0 "b.js") filtered_b) =
    changed_event "/a/y.js" filtered_b.
Proof.
  apply (triggers_do_not_interfere linux_child 0 "b.js" "/a/b.js"); [reflexivity | done].
Defined.

Lemma filterFile_adds_witness :
  filteredFiles (exec (filterFile linux_child (VStr "/a/y.js") (Some "o2")) filtered_b) =
    {["/a/y.js"]} ∪ filteredFiles filtered_b ∧
  (∀ g, FileToOwners (exec (filterFile linux_child (VStr "/a/y.js") (Some "o2")) filtered_b) g =
        if bool_decide (g = "/a/y.js") && truthy_owner (Some "o2")
        then {[default "" (Some "o2")]} ∪ FileToOwners filtered_b "/a/y.js"
        else FileToOwners filtered_b g) ∧
  debounce (exec (filterFile linux_child (VStr "/a/y.js") (Some "o2")) filtered_b) =
    debounce filtered_b ∧
  relay (exec (filterFile linux_child (VStr "/a/y.js") (Some "o2")) filtered_b) =
    relay filtered_b.
Proof. apply filterFile_adds; [done | by vm_compute]. Defined.

Lemma filtered_file_change_is_reported_witness :
  raw_trigger linux_child 0 "b.js"
    (exec (filterFile linux_child (VStr "/a/b.js") (Some "ownerX")) unwatched) =
    Some "/a/b.js" ∧
  ∃ owners, "ownerX" ∈ owners ∧
    emitted (exec (fs_change linux_child 0 "b.js")
               (exec (filterFile linux_child (VStr "/a/b.js") (Some "ownerX")) unwatched)) =
      (emitted unwatched ++
       [{| at_time := now unwatched; trigger_of := "/a/b.js"; payload := Some owners |}])%list.
Proof.
  apply (filtered_file_change_is_reported linux_child 100 [] "/a/b.js" "ownerX" "b.js").
  - reflexivity.
  - done.
  - done.
  - reflexivity.
  - reflexivity.
  - by vm_compute.
Defined.

Lemma pairing_round_trip_witness :
  returns (watchChildProcessModules 1 None) unwatched = true ∧
  returns (destroyIPC 1) (exec (watchChildProcessModules 1 None) unwatched) = true ∧
  process_listeners (exec (watchChildProcessModules 1 None) unwatched) =
    (process_listeners unwatched ++ [ParentToChild (next_closure unwatched) 1])%list ∧
  child_listeners (get_child 1 (exec (watchChildProcessModules 1 None) unwatched)) =
    (child_listeners (get_child 1 unwatched) ++
     ChildToParent (S (next_closure unwatched)) ::
     (if String.eqb (mode unwatched) "filter"
      then [ModuleReports (S (S (next_closure unwatched))) None] else []))%list ∧
  process_listeners (exec (destroyIPC 1) (exec (watchChildProcessModules 1 None) unwatched)) =
    process_listeners unwatched ∧
  child_listeners
    (get_child 1 (exec (destroyIPC 1) (exec (watchChildProcessModules 1 None) unwatched))) =
    (child_listeners (get_child 1 unwatched) ++
     (if String.eqb (mode unwatched) "filter"
      then [ModuleReports (S (S (next_closure unwatched))) None] else []))%list ∧
  (∀ c, c ≠ 1 →
     get_child c (exec (destroyIPC 1) (exec (watchChildProcessModules 1 None) unwatched)) =
     get_child c unwatched) ∧
  process_sent (exec (destroyIPC 1) (exec (watchChildProcessModules 1 None) unwatched)) =
    process_sent unwatched ∧
  child_sent
    (get_child 1 (exec (destroyIPC 1) (exec (watchChildProcessModules 1 None) unwatched))) =
    child_sent (get_child 1 unwatched).
Proof. apply (pairing_round_trip 1 None unwatched). reflexivity. Defined.

Lemma messages_are_forwarded_witness :
  (returns (process_message linux_child (VStr "ping"))
     (exec (watchChildProcessModules 1 None) unwatched) = true ∧
   child_sent (get_child 1 (exec (process_message linux_child (VStr "ping"))
                              (exec (watchChildProcessModules 1 None) unwatched))) =
     (child_sent (get_child 1 unwatched) ++ [VStr "ping"])%list ∧
   process_sent (exec (process_message linux_child (VStr "ping"))
                   (exec (watchChildProcessModules 1 None) unwatched)) =
     process_sent unwatched) ∧
  (returns (child_message linux_child 1 (VStr "ping"))
     (exec (watchChildProcessModules 1 None) unwatched) = true ∧
   ∃ tail, process_sent (exec (child_message linux_child 1 (VStr "ping"))
                           (exec (watchChildProcessModules 1 None) unwatched)) =
             (process_sent unwatched ++ VStr "ping" :: tail)%list ∧
           (tail = [] ∨ (mode unwatched = "filter" ∧ tail = [watch_restarted]))).
Proof.
  apply (messages_are_forwarded linux_child 1 None (VStr "ping") unwatched); reflexivity.
Defined.


(** * Beyond the claims: errors *)

Section ErrorFacts.

Variable E : env.

(** X15.  When the watch that [filterFile] asks for is needed and the fs
    primitive refuses it, [filterFile] throws the error of the primitive
    and registers nothing: the file is not added to the filter, and the
    owner graph, the registry, the throttle windows and the relay are as
    they were. *)
Theorem filterFile_refused_registers_nothing f owner s :
  let target := if supportsRecursiveWatching E then dirname E f else f in
  let rec := supportsRecursiveWatching E in
  f ≠ "" →
  isPathWatched target s = false →
  fs_watch_ok E target rec = false →
  let r := filterFile E (VStr f) owner s in
  r.1 = Throw (FsError target) ∧
  filteredFiles r.2 = filteredFiles s ∧ graph r.2 = graph s ∧
  registry r.2 = registry s ∧ debounce r.2 = debounce s ∧ relay r.2 = relay s.
Proof.
  cbv zeta. intros Hf Hcov Hno. rewrite (filterFile_eq E f owner s Hf).
  unfold watch_for. set (s1 := set_filter_log _ s).
  destruct (supportsRecursiveWatching E); rewrite watchPath_eq;
    change (isPathWatched ?p s1) with (isPathWatched p s); by rewrite Hcov, Hno.
Qed.

(** X16.  A child message that holds no array under ["watch:require"] or
    ["watch:import"] (so also every message that is not an object) changes
    nothing at all and sends nothing. *)
Theorem unrecognised_message_is_ignored key message s :
  has_report_list message = false →
  module_reports E key message s = (Normal tt, s).
Proof.
  intros Hno. destruct message as [| | | | | |props]; try reflexivity.
  unfold has_report_list in Hno. apply orb_false_iff in Hno as [Hreq Himp].
  unfold module_reports, try_catch, register_reports, get_property, bind, ret.
  rewrite Hreq, Himp. reflexivity.
Qed.

End ErrorFacts.

Lemma filterFile_refused_registers_nothing_witness :
  (filterFile read_only_fs (VStr "/a/b.js") (Some "o") unwatched).1 = Throw (FsError "/a/b.js") ∧
  filteredFiles (filterFile read_only_fs (VStr "/a/b.js") (Some "o") unwatched).2 =
    filteredFiles unwatched ∧
  graph (filterFile read_only_fs (VStr "/a/b.js") (Some "o") unwatched).2 = graph unwatched ∧
  registry (filterFile read_only_fs (VStr "/a/b.js") (Some "o") unwatched).2 =
    registry unwatched ∧
  debounce (filterFile read_only_fs (VStr "/a/b.js") (Some "o") unwatched).2 =
    debounce unwatched ∧
  relay (filterFile read_only_fs (VStr "/a/b.js") (Some "o") unwatched).2 = relay unwatched.
Proof.
  apply (filterFile_refused_registers_nothing read_only_fs "/a/b.js" (Some "o") unwatched);
    [done | reflexivity | reflexivity].
Defined.

Lemma unrecognised_message_is_ignored_witness :
  module_reports linux_child (Some "o") (VObj [("watch:require", VStr "/a/x.js")]) unwatched =
    (Normal tt, unwatched).
Proof. apply unrecognised_message_is_ignored. reflexivity. Defined.
